(** * Weekly settlement calculator: shallow embedding and verified properties

    The development follows [app/utils.py] (quantization, week helpers,
    [calculate_settlement_values], [validate_settlement_data]) and the debt
    ledger transitions of [app/routes.py] ([api_create_settlement],
    [api_update_debt], [api_delete_settlement]).  It also covers the
    advance routes ([get_weekly_advances], [api_add_advance],
    [api_delete_advance]), the item loop of [api_create_settlement],
    [api_mark_received], [complete_transaction] of [app/admin_routes.py],
    and the reports [get_upcoming_settlements], [calculate_weekly_averages]
    and [get_financial_summary].

    Number model.  Python's [Decimal] amounts are embedded by their numeric
    value as rationals ([Q]); [+], [-], [*] and comparisons are the exact
    ones, division raises on a zero divisor as [Decimal] does, and
    [quantize(Decimal("0.01"), ROUND_HALF_UP)] is rounding to hundredths with
    ties away from zero.  Numeric equality of amounts is [Qeq] ([==]), the
    equality [Decimal.__eq__] implements.  The precision of the decimal
    context (28 significant digits) is not modelled: quotients are exact, and
    no amount is so large that [quantize] is refused.

    Dictionaries are [gmap string Q]; a loop over [d.items()] is a
    [map_fold] over the map, so the order in which a dictionary is walked is
    the map's and not the insertion order, which no result depends on.

    Database rows are passed in and out explicitly: the [Debt] row is an
    [option debt_state], the advances stored for a week are a function of
    the week.  Where a route reads or writes a table, the table is the list
    of its rows in the order of the query, a new row's primary key is an
    argument, and a [Numeric] column holds the amount that was written to
    it.  Only the columns that the modelled code reads or that decide its
    result are kept; the log of transactions, notifications and e-mail are
    left out.

    Dates.  A date is its (year, month, day) triple and [timedelta] steps
    are day steps on it.  Years are not bounded above: [datetime.date] stops
    at 9999-12-31 and raises [OverflowError] past it, which is not
    modelled. *)

From stdpp Require Import gmap strings list fin_maps.
From Stdlib Require Import ZArith QArith Qround Qabs Qminmax Lqa Lia.

Local Open Scope Q_scope.

(** ** Exceptions and the error monad *)

Inductive exn : Type :=
  | DivisionByZero     (* decimal.DivisionByZero: x / 0 with x <> 0 *)
  | InvalidOperation   (* decimal.InvalidOperation: 0 / 0 *)
  | KeyError.          (* d[k] on a missing key *)

Inductive outcome (A : Type) : Type :=
  | Ok (a : A)
  | Raise (e : exn).
Arguments Ok {A} a.
Arguments Raise {A} e.

Global Instance outcome_ret : MRet outcome := @Ok.
Global Instance outcome_bind : MBind outcome := λ A B k m,
  match m with
  | Ok a => k a
  | Raise e => Raise e
  end.

(** ** Decimal amounts *)

Module Dec.

Definition ltb (a b : Q) : bool := negb (Qle_bool b a).
Definition eqb (a b : Q) : bool := Qeq_bool a b.

(** [max(a, b)] of Python: the first of the largest arguments. *)
Definition max (a b : Q) : Q := if ltb a b then b else a.

(** [a / b] on [Decimal]s. *)
Definition div (a b : Q) : outcome Q :=
  if eqb b 0 then
    Raise (if eqb a 0 then InvalidOperation else DivisionByZero)
  else Ok (a / b).

(** Nearest integer, ties away from zero ([ROUND_HALF_UP]). *)
Definition round_half_up (x : Q) : Z :=
  if Qle_bool 0 x then Qfloor (x + (1 # 2))
  else Z.opp (Qfloor (- x + (1 # 2))).

End Dec.

(** [quant(v)]: [Decimal(v).quantize(Decimal("0.01"), rounding=ROUND_HALF_UP)]. *)
Definition quant (v : Q) : Q := Dec.round_half_up (v * 100) # 100.

(** ** Calendar dates *)

Record date : Type := Date { year : Z; month : Z; day : Z }.

Module Cal.

Definition isleap (y : Z) : bool :=
  (y mod 4 =? 0)%Z && (negb (y mod 100 =? 0)%Z || (y mod 400 =? 0)%Z).

(** [calendar.monthrange(y, m)[1]]: the number of days of month [m]. *)
Definition days_in_month (y m : Z) : Z :=
  (if (m =? 2) then (if isleap y then 29 else 28)
   else if (m =? 4) || (m =? 6) || (m =? 9) || (m =? 11) then 30
   else 31)%Z.

(** The values a [datetime.date] object can hold. *)
Definition valid (d : date) : Prop :=
  (1 ≤ year d ∧ 1 ≤ month d ≤ 12 ∧ 1 ≤ day d ≤ days_in_month (year d) (month d))%Z.

(** [a <= b] on dates: comparison of the (year, month, day) triples. *)
Definition leb (a b : date) : bool :=
  ((year a <? year b)
   || ((year a =? year b)
       && ((month a <? month b)
           || ((month a =? month b) && (day a <=? day b)))))%Z.

(** [d + timedelta(days=1)]. *)
Definition next_day (d : date) : date :=
  if (day d <? days_in_month (year d) (month d))%Z
  then Date (year d) (month d) (day d + 1)
  else if (month d <? 12)%Z
       then Date (year d) (month d + 1) 1
       else Date (year d + 1) 1 1.

(** [d + timedelta(days=n)]. *)
Fixpoint add_days (n : nat) (d : date) : date :=
  match n with
  | O => d
  | S k => next_day (add_days k d)
  end.

(** [d - timedelta(days=1)]. *)
Definition prev_day (d : date) : date :=
  if (1 <? day d)%Z
  then Date (year d) (month d) (day d - 1)
  else if (1 <? month d)%Z
       then Date (year d) (month d - 1) (days_in_month (year d) (month d - 1))
       else Date (year d - 1) 12 31.

(** [d - timedelta(days=n)]. *)
Fixpoint sub_days (n : nat) (d : date) : date :=
  match n with
  | O => d
  | S k => prev_day (sub_days k d)
  end.

Definition days_before_year (y : Z) : Z :=
  (let y1 := y - 1 in y1 * 365 + y1 / 4 - y1 / 100 + y1 / 400)%Z.

Definition days_before_month (y m : Z) : Z :=
  foldr (λ k acc, days_in_month y (Z.of_nat k) + acc)%Z 0%Z
        (seq 1 (Z.to_nat (m - 1))).

(** [d.toordinal()]: 0001-01-01 is day 1. *)
Definition toordinal (d : date) : Z :=
  (days_before_year (year d) + days_before_month (year d) (month d) + day d)%Z.

(** [d.weekday()]: Monday is 0. *)
Definition weekday (d : date) : Z := ((toordinal d + 6) mod 7)%Z.

End Cal.

(** [week_start_end_for_date(ref_date)]: the Monday and the Sunday of the week. *)
Definition week_start_end_for_date (ref_date : date) : date * date :=
  let weekday := Cal.weekday ref_date in
  let monday := Cal.sub_days (Z.to_nat weekday) ref_date in
  let sunday := Cal.add_days 6 monday in
  (monday, sunday).

(** [is_last_week_of_month(week_start, week_end)]. *)
Definition is_last_week_of_month (week_start week_end : date) : bool :=
  let last_day :=
    Date (year week_start) (month week_start)
         (Cal.days_in_month (year week_start) (month week_start)) in
  Cal.leb week_start last_day && Cal.leb last_day week_end.

(** ** Configuration ([config.py], read through [current_app.config]) *)

Record config : Type := Config {
  FIXED_SHARES : gmap string Q;
  FELIX_DAILY_SALARY : Q;
  RENT : Q;
  MILK_BILL : Q;
  DEBT_PERCENT : Q
}.

(** The constants of [class Config]. *)
Definition app_config : config :=
  {| FIXED_SHARES :=
       <["Bett" := 775 # 1000]> (<["Felix" := 86 # 1000]> (<["Willy" := 139 # 1000]> ∅));
     FELIX_DAILY_SALARY := 1000;
     RENT := 12000;
     MILK_BILL := 1500;
     DEBT_PERCENT := 10 # 100 |}.

Definition WEEK_DAYS : Q := 7.

(** ** The settlement calculator *)

(** The dictionary [calculate_settlement_values] returns. *)
Record settlement_values : Type := SettlementValues {
  income : Q;
  expenses : Q;
  salary_total : Q;
  debt : Q;
  rent : Q;
  milk : Q;
  total_advances : Q;
  net_distributable : Q;
  gross_shares : gmap string Q;
  net_payouts : gmap string Q;
  week_start : date;
  week_end : date;
  felix_substitute : bool
}.

(** The three accumulators of the first loop. *)
Record first_pass_state : Type := FirstPass {
  initial_payouts : gmap string Q;
  over_advance_members : gmap string Q;
  total_over_advance : Q
}.

(** [sum(d.values())]. *)
Definition sum_values (d : gmap string Q) : Q :=
  map_fold (λ _ v acc, acc + v) 0 d.

(** [d[k]]. *)
Definition getitem (d : gmap string Q) (k : string) : outcome Q :=
  match d !! k with
  | Some v => Ok v
  | None => Raise KeyError
  end.

Section Calculator.

Variable cfg : config.
Variable advances_dict : gmap string Q.

(** [quant(net_distributable * ratio)]. *)
Definition gross_share (net_distributable ratio : Q) : Q :=
  quant (net_distributable * ratio).

(** Body of the first loop, for one [(name, ratio)] item. *)
Definition first_pass_step (net_distributable : Q)
    (name : string) (ratio : Q) (st : first_pass_state) : first_pass_state :=
  let gross := gross_share net_distributable ratio in
  let advance := quant (default 0 (advances_dict !! name)) in
  let net_payout := gross - advance in
  if Dec.ltb net_payout 0 then
    {| over_advance_members := <[name := - net_payout]> (over_advance_members st);
       total_over_advance := total_over_advance st + - net_payout;
       initial_payouts := <[name := 0]> (initial_payouts st) |}
  else
    {| over_advance_members := over_advance_members st;
       total_over_advance := total_over_advance st;
       initial_payouts := <[name := net_payout]> (initial_payouts st) |}.

(** First pass: gross shares minus advances, over-advances set aside. *)
Definition first_pass (net_distributable : Q) : first_pass_state :=
  map_fold (first_pass_step net_distributable)
           {| initial_payouts := ∅; over_advance_members := ∅;
              total_over_advance := 0 |}
           (FIXED_SHARES cfg).

(** Total share ratio of the members who did not over-advance;
    [FIXED_SHARES[name]] for a key of [FIXED_SHARES] is the item's ratio. *)
Definition valid_share_total (over : gmap string Q) : Q :=
  map_fold (λ name ratio acc,
              match over !! name with
              | None => acc + ratio
              | Some _ => acc
              end)
           0 (FIXED_SHARES cfg).

(** Body of the redistribution loop, for one key of [initial_payouts];
    [payouts] is the dictionary as the earlier iterations left it. *)
Definition redistribute_step (over : gmap string Q) (total share_total : Q)
    (name : string) (acc : outcome (gmap string Q))
    : outcome (gmap string Q) :=
  payouts ← acc;
  match over !! name with
  | None =>
      ratio ← getitem (FIXED_SHARES cfg) name;
      redistribution_ratio ← Dec.div ratio share_total;
      let additional_share := quant (total * redistribution_ratio) in
      payout ← getitem payouts name;
      mret (<[name := payout + additional_share]> payouts)
  | Some _ => mret payouts
  end.

(** Second pass: the over-advance total is shared among the others. *)
Definition redistribute (st : first_pass_state) : outcome (gmap string Q) :=
  if Dec.ltb 0 (total_over_advance st) then
    let share_total := valid_share_total (over_advance_members st) in
    map_fold (λ name _, redistribute_step (over_advance_members st)
                                          (total_over_advance st) share_total name)
             (Ok (initial_payouts st)) (initial_payouts st)
  else Ok (initial_payouts st).

(** Third pass: Felix's salary, only without a substitute. *)
Definition apply_salary (felix_substitute : bool) (salary_total : Q)
    (payouts : gmap string Q) : gmap string Q :=
  map_fold (λ name payout final_payouts,
              if String.eqb name "Felix" && negb felix_substitute
              then <[name := payout + salary_total]> final_payouts
              else <[name := payout]> final_payouts)
           ∅ payouts.

(** [salary_total]: the weekly salary, or zero with a substitute. *)
Definition salary_of (felix_substitute : bool) : Q :=
  if negb felix_substitute then quant (FELIX_DAILY_SALARY cfg * WEEK_DAYS)
  else 0.

(** [net_distributable], as the calculator computes it before the loops. *)
Definition net_of (total_income total_expenses : Q)
    (week_start week_end : date) (felix_substitute : bool) : Q :=
  let income := quant total_income in
  let expenses := quant total_expenses in
  let salary_total := salary_of felix_substitute in
  let debt := quant (income * DEBT_PERCENT cfg) in
  let rent := if is_last_week_of_month week_start week_end then RENT cfg else 0 in
  let milk := if is_last_week_of_month week_start week_end then MILK_BILL cfg else 0 in
  let net := income - (expenses + salary_total + debt + rent + milk) in
  quant (Dec.max net 0).

(** The share payouts after redistribution and before the salary step
    ([initial_payouts] when the last loop starts). *)
Definition provisional_payouts (total_income total_expenses : Q)
    (week_start week_end : date) (felix_substitute : bool)
    : outcome (gmap string Q) :=
  redistribute
    (first_pass (net_of total_income total_expenses week_start week_end
                        felix_substitute)).

(** [calculate_settlement_values]. *)
Definition calculate_settlement_values (total_income total_expenses : Q)
    (week_start week_end : date) (felix_substitute : bool)
    : outcome settlement_values :=
  let income := quant total_income in
  let expenses := quant total_expenses in
  let salary_total := salary_of felix_substitute in
  let debt := quant (income * DEBT_PERCENT cfg) in
  let rent := if is_last_week_of_month week_start week_end then RENT cfg else 0 in
  let milk := if is_last_week_of_month week_start week_end then MILK_BILL cfg else 0 in
  let total_advances := quant (sum_values advances_dict) in
  let net := income - (expenses + salary_total + debt + rent + milk) in
  let net_distributable := quant (Dec.max net 0) in
  payouts ← redistribute (first_pass net_distributable);
  let final_payouts := apply_salary felix_substitute salary_total payouts in
  let gross_shares :=
    map_fold (λ name ratio acc, <[name := gross_share net_distributable ratio]> acc)
             ∅ (FIXED_SHARES cfg) in
  mret {| income := income; expenses := expenses;
          salary_total := salary_total; debt := debt;
          rent := rent; milk := milk;
          total_advances := total_advances;
          net_distributable := net_distributable;
          gross_shares := gross_shares;
          net_payouts := final_payouts;
          week_start := week_start; week_end := week_end;
          felix_substitute := felix_substitute |}.

End Calculator.

(** ** Input validation ([validate_settlement_data]) *)

(** The list of error messages; [existing] answers the query for a
    settlement already stored for the week of [ref_date]. *)
Definition validate_settlement_data (existing : date → date → bool)
    (income expenses : Q) (ref_date : date) : list string :=
  let errors := [] in
  let errors :=
    if Qle_bool income 0 then errors ++ ["Income must be greater than 0"%string]
    else errors in
  let errors :=
    if Dec.ltb expenses 0 then errors ++ ["Expenses cannot be negative"%string]
    else errors in
  let errors :=
    if Dec.ltb income expenses
    then errors ++ ["Income cannot be less than expenses"%string]
    else errors in
  let '(week_start, week_end) := week_start_end_for_date ref_date in
  if existing week_start week_end
  then errors ++ ["A settlement already exists for this week"%string]
  else errors.

(** ** The debt ledger ([Debt] row and the routes that write it) *)

Record debt_state : Type := Debt { total_debt : Q; remaining_debt : Q }.

(** [0 <= remaining_debt <= total_debt]. *)
Definition debt_invariant (d : debt_state) : Prop :=
  0 <= remaining_debt d ∧ remaining_debt d <= total_debt d.

Module Ledger.

(** [Debt.query.first()], a fresh [Debt(0, 0)] when there is no row. *)
Definition first_or_new (row : option debt_state) : debt_state :=
  default (Debt 0 0) row.

(** The debt branch of [api_create_settlement]: the new row and
    [actual_payment]. *)
Definition apply_payment (debt_payment : Q) (d : debt_state) : debt_state * Q :=
  if Dec.ltb 0 (remaining_debt d) then
    if Qle_bool (remaining_debt d) debt_payment then
      (Debt (total_debt d) 0, remaining_debt d)
    else
      (Debt (total_debt d) (remaining_debt d - debt_payment), debt_payment)
  else
    (Debt (total_debt d + debt_payment) (remaining_debt d + debt_payment), 0).

(** The debt reversal of [api_delete_settlement]. *)
Definition reverse_payment (debt_deduction : Q) (row : option debt_state)
    : option debt_state :=
  match row with
  | Some d =>
      if Dec.ltb 0 debt_deduction then
        let remaining := remaining_debt d + debt_deduction in
        if Dec.ltb (total_debt d) remaining
        then Some (Debt remaining remaining)
        else Some (Debt (total_debt d) remaining)
      else Some d
  | None => None
  end.

(** [api_delete_settlement], for a settlement with the given
    [is_completed] flag and [debt_deduction]: the [Debt] row after the
    request and the [success] flag. *)
Definition api_delete_settlement (role : string) (is_completed : bool)
    (debt_deduction : Q) (row : option debt_state) : option debt_state * bool :=
  if negb (String.eqb role "admin") then (row, false)
  else if is_completed then (row, false)
  else (reverse_payment debt_deduction row, true).

(** [api_update_debt]: the row after the request and the [success] flag. *)
Definition api_update_debt (role : string) (new_remaining : Q)
    (row : option debt_state) : option debt_state * bool :=
  if negb (String.eqb role "admin") then (row, false)
  else match row with
       | Some d => (Some (Debt (total_debt d) new_remaining), true)
       | None => (None, false)
       end.

End Ledger.

(** ** The settlement route ([api_create_settlement]) *)

Record settlement_request : Type := SettlementRequest {
  req_ref_date : date;
  req_total_income : Q;
  req_total_expenses : Q;
  req_felix_substitute : bool
}.

(** The route computes the settlement for the week of [ref_date] from the
    advances stored for that week and books the debt deduction; it returns
    the computed values with the new debt row. *)
Definition api_create_settlement (cfg : config)
    (get_weekly_advances : date → date → gmap string Q)
    (row : option debt_state) (data : settlement_request)
    : outcome (settlement_values * debt_state) :=
  let '(week_start, week_end) := week_start_end_for_date (req_ref_date data) in
  let income := req_total_income data in
  let expenses := req_total_expenses data in
  let advances_dict := get_weekly_advances week_start week_end in
  calc ← calculate_settlement_values cfg advances_dict income expenses
            week_start week_end (req_felix_substitute data);
  let debt_row := Ledger.first_or_new row in
  let '(debt_row, actual_payment) := Ledger.apply_payment (debt calc) debt_row in
  mret (calc, debt_row).

(** ** Notions used in the statements *)

(** The number of entries of a dictionary, as an amount. *)
Definition count (d : gmap string Q) : Q := inject_Z (Z.of_nat (size d)).

(** The advance counted against a member: [quant(advances_dict.get(name, 0))]. *)
Definition advance_of (advances_dict : gmap string Q) (name : string) : Q :=
  quant (default 0 (advances_dict !! name)).

(** A member is over-advanced when the advance exceeds the gross share. *)
Definition over_advanced (advances_dict : gmap string Q) (net_distributable : Q)
    (name : string) (ratio : Q) : bool :=
  Dec.ltb (gross_share net_distributable ratio - advance_of advances_dict name) 0.

(** The share table restricted to the normal (not over-advanced) members. *)
Definition normal_shares (cfg : config) (advances_dict : gmap string Q)
    (net_distributable : Q) : gmap string Q :=
  filter (λ item, over_advanced advances_dict net_distributable item.1 item.2 = false)
         (FIXED_SHARES cfg).

(** The amount a normal member receives from the over-advance total:
    [quant(total_over_advance * (ratio / valid_share_total))]. *)
Definition additional_share (total share_total ratio : Q) : Q :=
  quant (total * (ratio / share_total)).

(** The share payout of a member when the salary loop starts. *)
Definition provisional_of (cfg : config) (advances_dict : gmap string Q)
    (net_distributable : Q) (name : string) (ratio : Q) : Q :=
  let st := first_pass cfg advances_dict net_distributable in
  let net_payout :=
    gross_share net_distributable ratio - advance_of advances_dict name in
  if over_advanced advances_dict net_distributable name ratio then 0
  else if Dec.ltb 0 (total_over_advance st)
       then net_payout
            + additional_share (total_over_advance st)
                (valid_share_total cfg (over_advance_members st)) ratio
       else net_payout.

(** The amounts the redistribution loop adds, by normal member. *)
Definition redistributed (cfg : config) (advances_dict : gmap string Q)
    (net_distributable : Q) : gmap string Q :=
  let st := first_pass cfg advances_dict net_distributable in
  additional_share (total_over_advance st)
                   (valid_share_total cfg (over_advance_members st))
  <$> normal_shares cfg advances_dict net_distributable.

(** The advances counted against the configured members, added up. *)
Definition member_advances (cfg : config) (advances_dict : gmap string Q) : Q :=
  sum_values (map_imap (λ name _, Some (advance_of advances_dict name))
                       (FIXED_SHARES cfg)).

(** What the first loop has stored once it has run over the items [m]. *)
Definition first_pass_inv (advances_dict : gmap string Q) (net : Q)
    (st : first_pass_state) (m : gmap string Q) : Prop :=
  (∀ name,
     initial_payouts st !! name
     = (λ ratio, if over_advanced advances_dict net name ratio then 0
                 else gross_share net ratio - advance_of advances_dict name)
       <$> m !! name)
  ∧ (∀ name,
       over_advance_members st !! name
       = m !! name ≫= λ ratio,
           if over_advanced advances_dict net name ratio
           then Some (- (gross_share net ratio - advance_of advances_dict name))
           else None)
  ∧ total_over_advance st == sum_values (over_advance_members st).

(** The final payout of a member who is not over-advanced, when nobody is. *)
Definition final_payout_of (cfg : config) (advances_dict : gmap string Q)
    (net : Q) (substitute : bool) (name : string) (ratio : Q) : Q :=
  let payout := gross_share net ratio - advance_of advances_dict name in
  if String.eqb name "Felix" && negb substitute
  then payout + salary_of cfg substitute else payout.

(** The first day of the month that follows the month of [d]. *)
Definition first_of_next_month (d : date) : date :=
  if (month d <? 12)%Z then Date (year d) (month d + 1) 1
  else Date (year d + 1) 1 1.

(** An amount in whole cents. *)
Definition is_cents (x : Q) : Prop := ∃ n : Z, x == n # 100.

(** Every configured share ratio is positive. *)
Definition positive_shares (cfg : config) : Prop :=
  map_Forall (λ _ ratio, 0 < ratio) (FIXED_SHARES cfg).

(** ** Inputs used as instances *)

(** An input on which every member is over-advanced: nothing to
    distribute, and ten shillings drawn by each member. *)
Definition advances_of_all : gmap string Q :=
  <["Bett" := 10]> (<["Felix" := 10]> (<["Willy" := 10]> ∅)).

(** The over-advance example of the specification: Bett has drawn 60000
    against a gross share of 48825. *)
Definition advances_of_bett : gmap string Q := {[ "Bett"%string := 60000 ]}.

(** * The rows of the database and the other routes *)

(** ** Advance rows and the routes that keep them *)

Global Instance date_eq_dec : EqDecision date.
Proof. solve_decision. Defined.

(** A [WeeklyAdvance] row (the columns the routes read). *)
Record weekly_advance : Type := WeeklyAdvance {
  wa_id : Z;
  wa_member_name : string;
  wa_amount : Q;
  wa_advance_date : date;
  wa_week_start : date;
  wa_week_end : date
}.

(** [WeeklyAdvance.query.filter_by(week_start=..., week_end=...).all()]. *)
Definition advances_of_week (table : list weekly_advance) (ws we : date)
    : list weekly_advance :=
  filter (λ a, wa_week_start a = ws ∧ wa_week_end a = we) table.

(** [advances_dict[advance.member_name] += Decimal(advance.amount)] on a
    [defaultdict(Decimal)]. *)
Definition add_to_advances (advances_dict : gmap string Q)
    (advance : weekly_advance) : gmap string Q :=
  <[wa_member_name advance :=
      default 0 (advances_dict !! wa_member_name advance) + wa_amount advance]>
    advances_dict.

(** [get_weekly_advances(week_start, week_end)] over the rows of the table. *)
Definition get_weekly_advances (table : list weekly_advance) (ws we : date)
    : gmap string Q :=
  foldl add_to_advances ∅ (advances_of_week table ws we).

(** The advance rows and, by member name, the [outstanding_advance]
    column of the [Member] rows. *)
Record advance_db : Type := AdvanceDb {
  advance_rows : list weekly_advance;
  outstanding_advance : gmap string Q
}.

(** [api_add_advance] on the day [today]; [new_id] is the key the
    database gives the new row.  The new state and the [success] flag. *)
Definition api_add_advance (today : date) (new_id : Z)
    (member_name : string) (amount : Q) (db : advance_db) : advance_db * bool :=
  let '(week_start, week_end) := week_start_end_for_date today in
  if Dec.ltb 0 amount && negb (String.eqb member_name "") then
    let advance :=
      {| wa_id := new_id; wa_member_name := member_name; wa_amount := amount;
         wa_advance_date := today;
         wa_week_start := week_start; wa_week_end := week_end |} in
    let members :=
      match outstanding_advance db !! member_name with
      | Some outstanding =>
          <[member_name := outstanding + amount]> (outstanding_advance db)
      | None => outstanding_advance db
      end in
    ({| advance_rows := advance_rows db ++ [advance];
        outstanding_advance := members |}, true)
  else (db, false).

(** [api_delete_advance(advance_id)]: [None] is the 404 of [get_or_404]. *)
Definition api_delete_advance (advance_id : Z) (db : advance_db)
    : option advance_db :=
  match list_find (λ a, wa_id a = advance_id) (advance_rows db) with
  | Some (_, advance) =>
      let members :=
        match outstanding_advance db !! wa_member_name advance with
        | Some outstanding =>
            <[wa_member_name advance := outstanding - wa_amount advance]>
              (outstanding_advance db)
        | None => outstanding_advance db
        end in
      Some {| advance_rows :=
                filter (λ a, wa_id a ≠ advance_id) (advance_rows db);
              outstanding_advance := members |}
  | None => None
  end.

(** All the amounts a member has drawn, over the whole table. *)
Definition member_total (table : list weekly_advance) (name : string) : Q :=
  foldr (λ a acc, if decide (wa_member_name a = name) then acc + wa_amount a else acc)
        0 table.

(** Each member's outstanding advance is the total of the member's rows. *)
Definition balances_consistent (db : advance_db) : Prop :=
  ∀ name outstanding,
    outstanding_advance db !! name = Some outstanding →
    outstanding == member_total (advance_rows db) name.

(** Two dictionaries of amounts with the same keys and equal amounts. *)
Definition same_amounts (d1 d2 : gmap string Q) : Prop :=
  ∀ name, option_Forall2 Qeq (d1 !! name) (d2 !! name).

(** ** Settlement rows and items *)

(** A [SettlementItem] row; [si_received_at] and the paid flag are the
    columns the payment routes write. *)
Record settlement_item : Type := SettlementItem {
  si_member_name : string;
  si_share_ratio : Q;
  si_gross_share : Q;
  si_advance : Q;
  si_net_payout : Q;
  si_is_paid : bool;
  si_received_at : option Z
}.

(** The item loop of [api_create_settlement], over the keys of
    [calc["gross_shares"]]. *)
Definition settlement_items (calc : settlement_values)
    (advances_dict : gmap string Q) : outcome (list settlement_item) :=
  map_fold (λ name gross acc,
              items ← acc;
              net_payout ← getitem (net_payouts calc) name;
              mret (items ++
                    [{| si_member_name := name;
                        si_share_ratio := gross;
                        si_gross_share := gross;
                        si_advance := quant (default 0 (advances_dict !! name));
                        si_net_payout := net_payout;
                        si_is_paid := false;
                        si_received_at := None |}]))
           (Ok []) (gross_shares calc).

(** The returned dictionary with another [total_advances]. *)
Definition with_total_advances (total : Q) (r : settlement_values)
    : settlement_values :=
  {| income := income r; expenses := expenses r;
     salary_total := salary_total r; debt := debt r;
     rent := rent r; milk := milk r;
     total_advances := total;
     net_distributable := net_distributable r;
     gross_shares := gross_shares r; net_payouts := net_payouts r;
     week_start := week_start r; week_end := week_end r;
     felix_substitute := felix_substitute r |}.

(** A [Settlement] row (the columns the modelled functions read). *)
Record settlement_row : Type := SettlementRow {
  st_id : Z;
  st_week_start : date;
  st_week_end : date;
  st_total_income : Q;
  st_total_expenses : Q;
  st_salary_deduction : Q;
  st_debt_deduction : Q;
  st_total_advances : Q;
  st_net_distributable : Q;
  st_is_completed : bool
}.

(** [Settlement.query.filter_by(week_start=..., week_end=...).first()]
    finds a row. *)
Definition settlement_exists (table : list settlement_row) (ws we : date) : bool :=
  existsb (λ s, bool_decide (st_week_start s = ws ∧ st_week_end s = we)) table.

(** ** Upcoming weeks ([get_upcoming_settlements]) *)

Record upcoming_week : Type := UpcomingWeek {
  up_week_start : date;
  up_week_end : date;
  up_is_last_week : bool
}.

(** [Settlement.query.filter_by(week_start=week_start).first()] finds a
    row. *)
Definition settlement_of_week (table : list settlement_row) (week_start : date)
    : bool :=
  existsb (λ s, bool_decide (st_week_start s = week_start)) table.

(** [get_upcoming_settlements(limit)] on the day [today]. *)
Definition get_upcoming_settlements (today : date)
    (table : list settlement_row) (limit : nat) : list upcoming_week :=
  foldl (λ upcoming i,
           let next_date := Cal.add_days (i * 7) today in
           let '(week_start, week_end) := week_start_end_for_date next_date in
           if settlement_of_week table week_start then upcoming
           else upcoming ++
                [{| up_week_start := week_start;
                    up_week_end := week_end;
                    up_is_last_week :=
                      is_last_week_of_month week_start week_end |}])
        [] (seq 0 limit).

(** ** Weekly averages ([calculate_weekly_averages]) *)

(** [sum(f(s) for s in settlements)]. *)
Definition sum_of (f : settlement_row → Q) (settlements : list settlement_row) : Q :=
  foldl (λ acc s, acc + f s) 0 settlements.

Definition calculate_weekly_averages (settlements : list settlement_row)
    : outcome (gmap string Q) :=
  match settlements with
  | [] => mret ∅
  | _ =>
      let total_weeks := inject_Z (Z.of_nat (length settlements)) in
      avg_income ← Dec.div (sum_of st_total_income settlements) total_weeks;
      avg_expenses ← Dec.div (sum_of st_total_expenses settlements) total_weeks;
      avg_net ← Dec.div (sum_of st_net_distributable settlements) total_weeks;
      avg_advances ← Dec.div (sum_of st_total_advances settlements) total_weeks;
      mret (<["avg_income" := quant avg_income]>
            (<["avg_expenses" := quant avg_expenses]>
             (<["avg_net" := quant avg_net]>
              (<["avg_advances" := quant avg_advances]>
               (<["total_weeks" := total_weeks]> ∅)))))
  end.

(** ** Completing a settlement and receiving a payout *)

(** [complete_transaction]: the settlement row and its items after the
    request; [admin_required] turns other roles away. *)
Definition complete_transaction (role : string)
    (settlement : settlement_row) (items : list settlement_item)
    : settlement_row * list settlement_item :=
  if negb (String.eqb role "admin") then (settlement, items)
  else if negb (st_is_completed settlement) then
    ({| st_id := st_id settlement;
        st_week_start := st_week_start settlement;
        st_week_end := st_week_end settlement;
        st_total_income := st_total_income settlement;
        st_total_expenses := st_total_expenses settlement;
        st_salary_deduction := st_salary_deduction settlement;
        st_debt_deduction := st_debt_deduction settlement;
        st_total_advances := st_total_advances settlement;
        st_net_distributable := st_net_distributable settlement;
        st_is_completed := true |},
     (λ item,
        {| si_member_name := si_member_name item;
           si_share_ratio := si_share_ratio item;
           si_gross_share := si_gross_share item;
           si_advance := si_advance item;
           si_net_payout := si_net_payout item;
           si_is_paid := true;
           si_received_at := si_received_at item |}) <$> items)
  else (settlement, items).

(** [api_mark_received] at the time [now]: the item after the request
    and the [success] flag. *)
Definition api_mark_received (now : Z) (item : settlement_item)
    : settlement_item * bool :=
  if Dec.ltb 0 (si_net_payout item) && negb (si_is_paid item) then
    ({| si_member_name := si_member_name item;
        si_share_ratio := si_share_ratio item;
        si_gross_share := si_gross_share item;
        si_advance := si_advance item;
        si_net_payout := si_net_payout item;
        si_is_paid := si_is_paid item;
        si_received_at := Some now |}, true)
  else (item, false).

(** The item written for a member by the item loop. *)
Definition item_of (advances_dict : gmap string Q) (name : string)
    (gross net_payout : Q) : settlement_item :=
  {| si_member_name := name;
     si_share_ratio := gross;
     si_gross_share := gross;
     si_advance := advance_of advances_dict name;
     si_net_payout := net_payout;
     si_is_paid := false;
     si_received_at := None |}.

(** The entry [get_upcoming_settlements] builds for the [i]-th week after
    the week that starts on [monday]. *)
Definition upcoming_entry (monday : date) (i : nat) : upcoming_week :=
  let week_start := Cal.add_days (i * 7) monday in
  {| up_week_start := week_start;
     up_week_end := Cal.add_days 6 week_start;
     up_is_last_week :=
       is_last_week_of_month week_start (Cal.add_days 6 week_start) |}.

(** The average of a column over the settlements, as the dictionary of
    [calculate_weekly_averages] holds it under [key]. *)
Definition holds_average (d : gmap string Q) (key : string)
    (column : settlement_row → Q) (settlements : list settlement_row) : Prop :=
  ∃ avg,
    d !! key = Some avg ∧ is_cents avg
    ∧ Qabs (avg - sum_of column settlements
                  / inject_Z (Z.of_nat (length settlements))) <= 1 # 200.

(** ** The financial summary ([get_financial_summary]) *)

(** [calendar.month_name[month]]. *)
Definition month_name (m : Z) : string :=
  match m with
  | 1 => "January" | 2 => "February" | 3 => "March" | 4 => "April"
  | 5 => "May" | 6 => "June" | 7 => "July" | 8 => "August"
  | 9 => "September" | 10 => "October" | 11 => "November"
  | 12 => "December" | _ => ""
  end%Z.

(** An entry of [monthly_data]. *)
Record month_summary : Type := MonthSummary {
  ms_income : Q;
  ms_net : Q;
  ms_count : nat
}.

(** The returned dictionary; [monthly_data] keeps the order in which its
    keys were inserted. *)
Record financial_summary : Type := FinancialSummary {
  fs_total_income : Q;
  fs_total_expenses : Q;
  fs_total_net : Q;
  fs_total_advances : Q;
  fs_total_debt : Q;
  fs_remaining_debt : Q;
  fs_paid_debt : Q;
  fs_monthly_data : list (string * month_summary);
  fs_settlement_count : nat
}.

(** [[s for s in settlements if s.week_start.year == current_year and
    s.week_start.month == month]]. *)
Definition monthly_settlements (current_year m : Z)
    (settlements : list settlement_row) : list settlement_row :=
  filter (λ s, year (st_week_start s) = current_year
               ∧ month (st_week_start s) = m) settlements.

(** One round of the loop over [range(1, 13)]. *)
Definition add_month (current_year : Z) (settlements : list settlement_row)
    (monthly_data : list (string * month_summary)) (m : Z)
    : list (string * month_summary) :=
  match monthly_settlements current_year m settlements with
  | [] => monthly_data
  | selected =>
      monthly_data ++
      [(month_name m,
        {| ms_income := sum_of st_total_income selected;
           ms_net := sum_of st_net_distributable selected;
           ms_count := length selected |})]
  end.

(** [get_financial_summary()] on the day [today], over the [Settlement]
    rows, the [outstanding_advance] of the [Member] rows and the [Debt]
    row. *)
Definition get_financial_summary (today : date)
    (settlements : list settlement_row) (members : gmap string Q)
    (row : option debt_state) : financial_summary :=
  let debt := Ledger.first_or_new row in
  let current_year := year today in
  {| fs_total_income := sum_of st_total_income settlements;
     fs_total_expenses := sum_of st_total_expenses settlements;
     fs_total_net := sum_of st_net_distributable settlements;
     fs_total_advances := sum_values members;
     fs_total_debt := total_debt debt;
     fs_remaining_debt := remaining_debt debt;
     fs_paid_debt := total_debt debt - remaining_debt debt;
     fs_monthly_data :=
       foldl (add_month current_year settlements) [] (seqZ 1 12);
     fs_settlement_count := length settlements |}.

(** The settlements whose week starts in the given year. *)
Definition settlements_of_year (current_year : Z)
    (settlements : list settlement_row) : list settlement_row :=
  filter (λ s, year (st_week_start s) = current_year) settlements.

(** Totals over the entries of [monthly_data]. *)
Definition months_count (monthly_data : list (string * month_summary)) : nat :=
  foldr (λ entry acc, ms_count entry.2 + acc)%nat 0%nat monthly_data.

Definition months_total (column : month_summary → Q)
    (monthly_data : list (string * month_summary)) : Q :=
  foldr (λ entry acc, column entry.2 + acc) 0 monthly_data.

(** ** Notions of the calendar *)

(** The number of days of the year [y]. *)
Definition year_length (y : Z) : Z := if Cal.isleap y then 366 else 365.

(** ** Further inputs used as instances *)

(** Wednesday, 31 January 2024; its week runs from Monday 29 January to
    Sunday 4 February. *)
Definition a_wednesday : date := Date 2024 1 31.

(** One advance of 200 drawn by Bett, with Bett's outstanding advance. *)
Definition one_advance_db : advance_db :=
  {| advance_rows :=
       [{| wa_id := 1; wa_member_name := "Bett"; wa_amount := 200;
           wa_advance_date := Date 2024 1 30;
           wa_week_start := Date 2024 1 29; wa_week_end := Date 2024 2 4 |}];
     outstanding_advance := {[ "Bett"%string := 200 ]} |}.

(** An open settlement for the week of [a_wednesday]. *)
Definition open_settlement : settlement_row :=
  {| st_id := 1;
     st_week_start := Date 2024 1 29; st_week_end := Date 2024 2 4;
     st_total_income := 100000; st_total_expenses := 20000;
     st_salary_deduction := 7000; st_debt_deduction := 10000;
     st_total_advances := 0; st_net_distributable := 49500;
     st_is_completed := false |}.

(** An unpaid item of 48825 for Bett. *)
Definition unpaid_item : settlement_item :=
  {| si_member_name := "Bett"; si_share_ratio := 48825;
     si_gross_share := 48825; si_advance := 0; si_net_payout := 48825;
     si_is_paid := false; si_received_at := None |}.

(** A request for the week of 10 January 2024. *)
Definition a_request : settlement_request :=
  {| req_ref_date := Date 2024 1 10; req_total_income := 100000;
     req_total_expenses := 20000; req_felix_substitute := false |}.

(** * Properties *)

(** ** Quantization *)

Section Quant.

Lemma ltb_lt (a b : Q) : Dec.ltb a b = true ↔ a < b.
Proof.
  unfold Dec.ltb. rewrite negb_true_iff. split.
  - intros H. apply Qnot_le_lt. intros Hle.
    apply Qle_bool_iff in Hle. congruence.
  - intros H. destruct (Qle_bool b a) eqn:E; [|done].
    apply Qle_bool_iff in E. apply Qlt_not_le in H. contradiction.
Qed.

Lemma ltb_ge (a b : Q) : Dec.ltb a b = false ↔ b <= a.
Proof.
  unfold Dec.ltb. rewrite negb_false_iff. apply Qle_bool_iff.
Qed.

Lemma round_half_up_proper (x y : Q) :
  x == y → Dec.round_half_up x = Dec.round_half_up y.
Proof.
  intros H. unfold Dec.round_half_up.
  assert (Qle_bool 0 x = Qle_bool 0 y) as -> by (rewrite H; reflexivity).
  assert (Qfloor (x + (1 # 2)) = Qfloor (y + (1 # 2))) as ->
    by (apply Qfloor_comp; rewrite H; reflexivity).
  assert (Qfloor (- x + (1 # 2)) = Qfloor (- y + (1 # 2))) as ->
    by (apply Qfloor_comp; rewrite H; reflexivity).
  reflexivity.
Qed.

Lemma quant_proper (v w : Q) : v == w → quant v = quant w.
Proof.
  intros H. unfold quant.
  rewrite (round_half_up_proper (v * 100) (w * 100)); [done|].
  rewrite H. reflexivity.
Qed.

Lemma round_half_up_error (x : Q) :
  - (1 # 2) <= inject_Z (Dec.round_half_up x) - x <= 1 # 2.
Proof.
  unfold Dec.round_half_up. destruct (Qle_bool 0 x) eqn:E.
  - pose proof (Qfloor_le (x + (1 # 2))) as Hlo.
    pose proof (Qlt_floor (x + (1 # 2))) as Hhi.
    rewrite inject_Z_plus in Hhi. change (inject_Z 1) with 1 in Hhi. lra.
  - pose proof (Qfloor_le (- x + (1 # 2))) as Hlo.
    pose proof (Qlt_floor (- x + (1 # 2))) as Hhi.
    rewrite inject_Z_plus in Hhi. change (inject_Z 1) with 1 in Hhi.
    rewrite inject_Z_opp. lra.
Qed.

Lemma quant_value (v : Q) :
  quant v == inject_Z (Dec.round_half_up (v * 100)) / 100.
Proof. unfold quant. rewrite Qmake_Qdiv. reflexivity. Qed.

(** A quantized amount is within half a cent of the amount. *)
Lemma quant_error (v : Q) : Qabs (quant v - v) <= 1 # 200.
Proof.
  rewrite quant_value. pose proof (round_half_up_error (v * 100)) as [Hlo Hhi].
  unfold Qdiv. change (/ 100) with (1 # 100).
  apply Qabs_Qle_condition. split; lra.
Qed.

Lemma round_half_up_nonneg (x : Q) : 0 <= x → (0 <= Dec.round_half_up x)%Z.
Proof.
  intros Hx. unfold Dec.round_half_up.
  pose proof Hx as Hb. apply Qle_bool_iff in Hb. rewrite Hb.
  change 0%Z with (Qfloor 0). apply Qfloor_resp_le. lra.
Qed.

Lemma quant_nonneg (v : Q) : 0 <= v → 0 <= quant v.
Proof.
  intros Hv. unfold quant, Qle. simpl. rewrite Z.mul_1_r.
  apply round_half_up_nonneg. lra.
Qed.

Lemma Qfloor_half (n : Z) : Qfloor (inject_Z n + (1 # 2)) = n.
Proof.
  pose proof (Qfloor_le (inject_Z n + (1 # 2))) as Hlo.
  pose proof (Qlt_floor (inject_Z n + (1 # 2))) as Hhi.
  set (f := Qfloor (inject_Z n + (1 # 2))) in *.
  assert (inject_Z f < inject_Z (n + 1)) as H1
    by (rewrite inject_Z_plus; change (inject_Z 1) with 1; lra).
  assert (inject_Z n < inject_Z (f + 1)) as H2 by lra.
  rewrite <- Zlt_Qlt in H1, H2. lia.
Qed.

Lemma round_half_up_integer (n : Z) : Dec.round_half_up (inject_Z n) = n.
Proof.
  unfold Dec.round_half_up. destruct (Qle_bool 0 (inject_Z n)).
  - apply Qfloor_half.
  - rewrite <- inject_Z_opp, Qfloor_half. lia.
Qed.

(** Quantizing an amount in whole cents leaves it as it is. *)
Lemma quant_cents (x : Q) : is_cents x → quant x == x.
Proof.
  intros [n Hn]. rewrite (quant_proper x (n # 100) Hn), Hn. unfold quant.
  rewrite (round_half_up_proper ((n # 100) * 100) (inject_Z n));
    [by rewrite round_half_up_integer|].
  rewrite (Qmake_Qdiv n 100). field.
Qed.

Lemma quant_is_cents (v : Q) : is_cents (quant v).
Proof. eexists. unfold quant. reflexivity. Qed.

Lemma is_cents_zero : is_cents 0.
Proof. exists 0%Z. reflexivity. Qed.

Lemma is_cents_plus (x y : Q) : is_cents x → is_cents y → is_cents (x + y).
Proof.
  intros [a Ha] [b Hb]. exists (a + b)%Z. rewrite Ha, Hb.
  rewrite !Qmake_Qdiv, inject_Z_plus. field.
Qed.

Lemma is_cents_minus (x y : Q) : is_cents x → is_cents y → is_cents (x - y).
Proof.
  intros [a Ha] [b Hb]. exists (a - b)%Z. rewrite Ha, Hb.
  rewrite !Qmake_Qdiv. unfold Z.sub. rewrite inject_Z_plus, inject_Z_opp. field.
Qed.

End Quant.

(** ** Dictionaries *)

Section Dicts.

Lemma sum_values_empty : sum_values ∅ = 0.
Proof. unfold sum_values. apply map_fold_empty. Qed.

Lemma sum_values_insert (d : gmap string Q) (k : string) (v : Q) :
  d !! k = None → sum_values (<[k := v]> d) == sum_values d + v.
Proof.
  intros Hk. unfold sum_values.
  apply (map_fold_insert Qeq (λ _ v acc, acc + v)); [| |done].
  - intros _ z a b Hab. rewrite Hab. reflexivity.
  - intros. ring.
Qed.

Lemma count_empty : count ∅ = 0.
Proof. unfold count. rewrite map_size_empty. reflexivity. Qed.

Lemma count_insert (d : gmap string Q) (k : string) (v : Q) :
  d !! k = None → count (<[k := v]> d) == count d + 1.
Proof.
  intros Hk. unfold count. rewrite map_size_insert_None by done.
  rewrite Nat2Z.inj_succ, <- Z.add_1_r, inject_Z_plus. reflexivity.
Qed.

Lemma count_nonneg (d : gmap string Q) : 0 <= count d.
Proof.
  unfold count. change 0 with (inject_Z 0). rewrite <- Zle_Qle. lia.
Qed.

Lemma sum_values_nonneg (d : gmap string Q) :
  map_Forall (λ _ v, 0 <= v) d → 0 <= sum_values d.
Proof.
  induction d as [|k v d Hk IH] using map_ind; intros Hd.
  - rewrite sum_values_empty. lra.
  - rewrite sum_values_insert by done.
    apply map_Forall_insert in Hd as [Hv Hd]; [|done].
    specialize (IH Hd). lra.
Qed.

Lemma sum_values_pos (d : gmap string Q) :
  map_Forall (λ _ v, 0 < v) d → d ≠ ∅ → 0 < sum_values d.
Proof.
  induction d as [|k v d Hk IH] using map_ind; intros Hd Hne; [done|].
  rewrite sum_values_insert by done.
  apply map_Forall_insert in Hd as [Hv Hd]; [|done].
  assert (0 <= sum_values d).
  { apply sum_values_nonneg. intros i x Hi. apply Qlt_le_weak. eauto. }
  lra.
Qed.

(** Entry-wise images that stay within [e] of a scaling by [c] add up
    to within [e] per entry of the scaled total. *)
Lemma sum_values_fmap_error (g : Q → Q) (c e : Q) (d : gmap string Q) :
  (∀ v, Qabs (g v - c * v) <= e) →
  Qabs (sum_values (g <$> d) - c * sum_values d) <= e * count d.
Proof.
  intros Hg. induction d as [|k v d Hk IH] using map_ind.
  - rewrite fmap_empty, sum_values_empty, count_empty.
    apply Qabs_Qle_condition. split; lra.
  - rewrite fmap_insert.
    rewrite sum_values_insert by (by rewrite lookup_fmap, Hk).
    rewrite sum_values_insert by done. rewrite count_insert by done.
    specialize (Hg v). apply Qabs_Qle_condition in Hg, IH.
    apply Qabs_Qle_condition. split; lra.
Qed.

(** A loop that stores one value per item builds the entry-wise image. *)
Lemma fold_insert_lookup (f : string → Q → Q) (d : gmap string Q) (k : string) :
  map_fold (λ name v (acc : gmap string Q), <[name := f name v]> acc) ∅ d !! k
  = f k <$> d !! k.
Proof.
  apply (map_fold_weak_ind
           (λ (acc inp : gmap string Q), acc !! k = f k <$> inp !! k)); [done|].
  intros i x m r Hi IH. destruct (decide (i = k)) as [->|Hne].
  - by rewrite !lookup_insert_eq.
  - by rewrite !lookup_insert_ne.
Qed.

End Dicts.

(** ** The first pass *)

Section FirstPass.

Variable cfg : config.
Variable advances_dict : gmap string Q.
Variable net : Q.

Lemma first_pass_inv_step (name : string) (ratio : Q)
    (st : first_pass_state) (m : gmap string Q) :
  m !! name = None →
  first_pass_inv advances_dict net st m →
  first_pass_inv advances_dict net
                 (first_pass_step advances_dict net name ratio st)
                 (<[name := ratio]> m).
Proof.
  intros Hfresh (Hpay & Hover & Htot). unfold first_pass_step.
  fold (advance_of advances_dict name).
  fold (over_advanced advances_dict net name ratio).
  destruct (over_advanced advances_dict net name ratio) eqn:Hoa;
    (split; [|split]); simpl.
  - intros k. destruct (decide (name = k)) as [<-|Hne].
    + rewrite !lookup_insert_eq. simpl. by rewrite Hoa.
    + by rewrite !lookup_insert_ne.
  - intros k. destruct (decide (name = k)) as [<-|Hne].
    + rewrite !lookup_insert_eq. simpl. by rewrite Hoa.
    + by rewrite !lookup_insert_ne.
  - rewrite sum_values_insert; [by rewrite Htot|].
    by rewrite Hover, Hfresh.
  - intros k. destruct (decide (name = k)) as [<-|Hne].
    + rewrite !lookup_insert_eq. simpl. by rewrite Hoa.
    + by rewrite !lookup_insert_ne.
  - intros k. destruct (decide (name = k)) as [<-|Hne].
    + rewrite lookup_insert_eq; simpl. rewrite Hoa.
      by rewrite Hover, Hfresh.
    + by rewrite Hover, lookup_insert_ne.
  - done.
Qed.

Lemma first_pass_spec :
  first_pass_inv advances_dict net
                 (first_pass cfg advances_dict net) (FIXED_SHARES cfg).
Proof.
  unfold first_pass.
  apply (map_fold_weak_ind (first_pass_inv advances_dict net)).
  - split; [|split]; simpl; [done..|]. rewrite sum_values_empty. reflexivity.
  - intros name ratio m st Hfresh IH. by apply first_pass_inv_step.
Qed.

End FirstPass.

(** ** Redistribution *)

Section Redistribution.

Variable cfg : config.
Variable advances_dict : gmap string Q.
Variable net : Q.

Local Abbreviation st := (first_pass cfg advances_dict net).
Local Abbreviation shares := (FIXED_SHARES cfg).

(** A configured member is missing from [over_advance_members] exactly
    when the member is not over-advanced. *)
Lemma over_advance_members_None (name : string) (ratio : Q) :
  shares !! name = Some ratio →
  over_advance_members st !! name = None
  ↔ over_advanced advances_dict net name ratio = false.
Proof.
  intros Hname. destruct (first_pass_spec cfg advances_dict net) as (_ & Hover & _).
  rewrite Hover, Hname. simpl.
  destruct (over_advanced advances_dict net name ratio); naive_solver.
Qed.

Lemma over_advance_members_Some (name : string) (excess : Q) :
  over_advance_members st !! name = Some excess →
  ∃ ratio, shares !! name = Some ratio
    ∧ over_advanced advances_dict net name ratio = true
    ∧ excess = - (gross_share net ratio - advance_of advances_dict name).
Proof.
  destruct (first_pass_spec cfg advances_dict net) as (_ & Hover & _).
  rewrite Hover. destruct (shares !! name) as [ratio|]; simpl; [|done].
  destruct (over_advanced advances_dict net name ratio) eqn:E; [|done].
  intros [= <-]. eauto.
Qed.

(** Every recorded excess is positive. *)
Lemma over_advance_members_pos :
  map_Forall (λ _ excess, 0 < excess) (over_advance_members st).
Proof.
  intros name excess Hname.
  apply over_advance_members_Some in Hname as (ratio & _ & Hoa & ->).
  apply ltb_lt in Hoa. lra.
Qed.

Lemma total_over_advance_sum :
  total_over_advance st == sum_values (over_advance_members st).
Proof. apply first_pass_spec. Qed.

Lemma total_over_advance_nonneg : 0 <= total_over_advance st.
Proof.
  rewrite total_over_advance_sum. apply sum_values_nonneg.
  intros name excess Hname. apply Qlt_le_weak.
  by apply (over_advance_members_pos name).
Qed.

(** With an over-advanced member the redistribution branch is taken. *)
Lemma total_over_advance_pos (name : string) (ratio : Q) :
  shares !! name = Some ratio →
  over_advanced advances_dict net name ratio = true →
  0 < total_over_advance st.
Proof.
  intros Hname Hoa. rewrite total_over_advance_sum.
  apply sum_values_pos; [apply over_advance_members_pos|].
  intros Hempty.
  assert (over_advance_members st !! name = None) as Hnone
    by (rewrite Hempty; apply lookup_empty).
  apply (over_advance_members_None name ratio Hname) in Hnone. congruence.
Qed.

(** Without any over-advanced member the total stays zero. *)
Lemma total_over_advance_zero :
  map_Forall (λ name ratio, over_advanced advances_dict net name ratio = false) shares →
  total_over_advance st == 0.
Proof.
  intros Hall. rewrite total_over_advance_sum.
  assert (over_advance_members st = ∅) as ->; [|by rewrite sum_values_empty].
  apply map_empty. intros name.
  destruct (over_advance_members st !! name) as [excess|] eqn:E; [|done].
  apply over_advance_members_Some in E as (ratio & Hname & Hoa & _).
  specialize (Hall name ratio Hname). simpl in Hall. congruence.
Qed.

(** The loop that adds up the normal members' ratios computes the total
    of the share table restricted to them. *)
Lemma share_total_filter (over m : gmap string Q) :
  (∀ name ratio, m !! name = Some ratio →
     over !! name = None ↔ over_advanced advances_dict net name ratio = false) →
  map_fold (λ name ratio acc,
              match over !! name with
              | None => acc + ratio
              | Some _ => acc
              end) 0 m
  == sum_values
       (filter (λ item, over_advanced advances_dict net item.1 item.2 = false) m).
Proof.
  induction m as [|k v m Hk IH] using map_ind; intros Hover.
  - rewrite map_fold_empty, map_filter_empty, sum_values_empty. reflexivity.
  - rewrite (map_fold_insert Qeq
               (λ name ratio acc,
                  match over !! name with None => acc + ratio | Some _ => acc end));
      [| |  |done].
    + assert (∀ name ratio, m !! name = Some ratio →
                over !! name = None
                ↔ over_advanced advances_dict net name ratio = false) as Hm.
      { intros name ratio Hname. apply Hover.
        rewrite lookup_insert_ne; [done|]. intros ->. congruence. }
      specialize (IH Hm).
      pose proof (Hover k v (lookup_insert_eq m k v)) as Hkv.
      destruct (over !! k) as [e|] eqn:E.
      * rewrite map_filter_insert_False, delete_id; [done..|].
        simpl. intros Hfalse. apply Hkv in Hfalse. done.
      * rewrite map_filter_insert_True by (simpl; by apply Hkv).
        rewrite sum_values_insert by (apply map_lookup_filter_None_2; by left).
        rewrite IH. reflexivity.
    + intros j z a b Hab. destruct (over !! j); rewrite Hab; reflexivity.
    + intros j1 j2 z1 z2 y _ _ _.
      destruct (over !! j1), (over !! j2); try reflexivity. ring.
Qed.

Lemma valid_share_total_normal :
  valid_share_total cfg (over_advance_members st)
  == sum_values (normal_shares cfg advances_dict net).
Proof.
  unfold valid_share_total, normal_shares. apply share_total_filter.
  intros name ratio Hname. by apply over_advance_members_None.
Qed.

(** The redistribution loop over the keys of [m], entries of the
    dictionary [b] it starts from. *)
Lemma redistribute_fold (over : gmap string Q) (total share_total : Q)
    (b m : gmap string Q) :
  (∀ name payout, m !! name = Some payout → b !! name = Some payout) →
  (∀ name, is_Some (m !! name) → over !! name = None →
     is_Some (shares !! name) ∧ ¬ share_total == 0) →
  ∃ payouts,
    map_fold (λ name _, redistribute_step cfg over total share_total name)
             (Ok b) m = Ok payouts
    ∧ ∀ name,
        payouts !! name
        = match m !! name, over !! name with
          | Some payout, None =>
              (λ ratio, payout + additional_share total share_total ratio)
                <$> shares !! name
          | _, _ => b !! name
          end.
Proof.
  apply (map_fold_weak_ind
    (λ acc (m : gmap string Q),
       (∀ name payout, m !! name = Some payout → b !! name = Some payout) →
       (∀ name, is_Some (m !! name) → over !! name = None →
          is_Some (shares !! name) ∧ ¬ share_total == 0) →
       ∃ payouts, acc = Ok payouts
         ∧ ∀ name,
             payouts !! name
             = match m !! name, over !! name with
               | Some payout, None =>
                   (λ ratio, payout + additional_share total share_total ratio)
                     <$> shares !! name
               | _, _ => b !! name
               end)).
  - intros _ _. exists b. split; [done|]. intros name. by rewrite lookup_empty.
  - intros k payout m' acc Hk IH Hsub Hdiv.
    destruct IH as (payouts & -> & Hpay).
    { intros name p Hname. apply Hsub.
      rewrite lookup_insert_ne; [done|]. intros ->. congruence. }
    { intros name Hname. apply Hdiv.
      rewrite lookup_insert_ne; [done|]. intros ->. rewrite Hk in Hname.
      by destruct Hname. }
    unfold redistribute_step. simpl.
    destruct (over !! k) as [e|] eqn:Hover.
    + exists payouts. split; [done|]. intros name.
      destruct (decide (k = name)) as [<-|Hne].
      * rewrite lookup_insert_eq, Hover, Hpay, Hk. done.
      * rewrite lookup_insert_ne by done. apply Hpay.
    + destruct (Hdiv k) as [[ratio Hratio] Hnz];
        [by rewrite lookup_insert_eq|done|].
      unfold getitem. rewrite Hratio. simpl.
      unfold Dec.div, Dec.eqb.
      destruct (Qeq_bool share_total 0) eqn:Hz;
        [apply Qeq_bool_iff in Hz; contradiction|].
      simpl.
      rewrite Hpay, Hk, (Hsub k payout (lookup_insert_eq m' k payout)). simpl.
      eexists. split; [done|]. intros name.
      destruct (decide (k = name)) as [<-|Hne].
      * rewrite !lookup_insert_eq, Hover, Hratio. done.
      * rewrite !lookup_insert_ne by done. apply Hpay.
Qed.

(** The redistribution returns as soon as the normal members, if any, have
    a non-zero share total; it then holds [provisional_of] for every
    configured member and nothing else. *)
Lemma redistribute_spec :
  (normal_shares cfg advances_dict net ≠ ∅ →
   ¬ valid_share_total cfg (over_advance_members st) == 0) →
  ∃ payouts,
    redistribute cfg st = Ok payouts
    ∧ ∀ name,
        payouts !! name
        = provisional_of cfg advances_dict net name <$> shares !! name.
Proof.
  intros Hdiv. unfold redistribute.
  destruct (first_pass_spec cfg advances_dict net) as (Hinit & Hover & _).
  destruct (Dec.ltb 0 (total_over_advance st)) eqn:Hpos.
  - destruct (redistribute_fold (over_advance_members st) (total_over_advance st)
                (valid_share_total cfg (over_advance_members st))
                (initial_payouts st) (initial_payouts st))
      as (payouts & Hfold & Hpay); [done| |].
    { intros name [payout Hname] Hnone.
      rewrite Hinit in Hname. destruct (shares !! name) as [ratio|] eqn:Hr; [|done].
      split; [done|]. apply Hdiv. intros Hempty.
      apply (over_advance_members_None name ratio Hr) in Hnone.
      assert (normal_shares cfg advances_dict net !! name = Some ratio) as Hin
        by (apply map_lookup_filter_Some_2; done).
      rewrite Hempty, lookup_empty in Hin. done. }
    exists payouts. split; [done|]. intros name. rewrite Hpay, Hinit, Hover.
    unfold provisional_of. rewrite Hpos.
    destruct (shares !! name) as [ratio|]; simpl; [|done].
    destruct (over_advanced advances_dict net name ratio); done.
  - exists (initial_payouts st). split; [done|]. intros name. rewrite Hinit.
    unfold provisional_of. rewrite Hpos. done.
Qed.

(** Positive share ratios give the normal members a positive total. *)
Lemma positive_shares_total :
  positive_shares cfg →
  normal_shares cfg advances_dict net ≠ ∅ →
  0 < valid_share_total cfg (over_advance_members st).
Proof.
  intros Hpos Hne. rewrite valid_share_total_normal.
  apply sum_values_pos; [|done].
  intros name ratio Hname. apply map_lookup_filter_Some_1_1 in Hname.
  by apply (Hpos name).
Qed.

End Redistribution.

(** ** The salary step and the calculator as a whole *)

Section Settlement.

Variable cfg : config.
Variable advances_dict : gmap string Q.

Local Abbreviation shares := (FIXED_SHARES cfg).

Lemma apply_salary_lookup (substitute : bool) (salary : Q)
    (payouts : gmap string Q) (name : string) :
  apply_salary substitute salary payouts !! name
  = (λ payout, if String.eqb name "Felix" && negb substitute
               then payout + salary else payout)
    <$> payouts !! name.
Proof.
  unfold apply_salary.
  apply (map_fold_weak_ind
    (λ (acc inp : gmap string Q),
       acc !! name
       = (λ payout, if String.eqb name "Felix" && negb substitute
                    then payout + salary else payout) <$> inp !! name)); [done|].
  intros k v m acc Hk IH. destruct (decide (k = name)) as [->|Hne].
  - destruct (String.eqb name "Felix" && negb substitute);
      by rewrite !lookup_insert_eq.
  - destruct (String.eqb k "Felix" && negb substitute);
      by rewrite !lookup_insert_ne.
Qed.

(** The calculator is its share passes followed by the salary step. *)
Lemma calculate_settlement_values_unfold (total_income total_expenses : Q)
    (ws we : date) (substitute : bool) :
  calculate_settlement_values cfg advances_dict total_income total_expenses
                              ws we substitute
  = payouts ← provisional_payouts cfg advances_dict total_income total_expenses
                                   ws we substitute;
    mret {| income := quant total_income;
            expenses := quant total_expenses;
            salary_total := salary_of cfg substitute;
            debt := quant (quant total_income * DEBT_PERCENT cfg);
            rent := if is_last_week_of_month ws we then RENT cfg else 0;
            milk := if is_last_week_of_month ws we then MILK_BILL cfg else 0;
            total_advances := quant (sum_values advances_dict);
            net_distributable := net_of cfg total_income total_expenses ws we substitute;
            gross_shares :=
              map_fold (λ name ratio (acc : gmap string Q),
                          <[name := gross_share
                                      (net_of cfg total_income total_expenses
                                              ws we substitute) ratio]> acc)
                       ∅ shares;
            net_payouts := apply_salary substitute (salary_of cfg substitute) payouts;
            week_start := ws; week_end := we;
            felix_substitute := substitute |}.
Proof. reflexivity. Qed.

(** With positive share ratios the share passes return, with
    [provisional_of] for every configured member. *)
Lemma provisional_payouts_returns (total_income total_expenses : Q)
    (ws we : date) (substitute : bool) :
  positive_shares cfg →
  ∃ payouts,
    provisional_payouts cfg advances_dict total_income total_expenses
                        ws we substitute = Ok payouts
    ∧ ∀ name,
        payouts !! name
        = provisional_of cfg advances_dict
            (net_of cfg total_income total_expenses ws we substitute) name
          <$> shares !! name.
Proof.
  intros Hpos. unfold provisional_payouts. apply redistribute_spec.
  intros Hne Hz.
  pose proof (positive_shares_total cfg advances_dict _ Hpos Hne) as Hlt.
  rewrite Hz in Hlt. by apply Qlt_irrefl in Hlt.
Qed.

End Settlement.

(** ** The configuration of the deployment *)

(** A property of the three configured members, checked member by member. *)
Ltac each_member :=
  unfold app_config; simpl FIXED_SHARES;
  repeat (apply map_Forall_insert_2; [vm_compute; reflexivity|]);
  apply map_Forall_empty.

Lemma app_config_positive : positive_shares app_config.
Proof. unfold positive_shares. each_member. Qed.

(** ** Net distributable amount *)

Lemma max_zero (x : Q) : Dec.max x 0 == Qmax 0 x.
Proof.
  unfold Dec.max. destruct (Dec.ltb x 0) eqn:E.
  - apply ltb_lt in E. rewrite Q.max_l; [reflexivity|lra].
  - apply ltb_ge in E. rewrite Q.max_r; [reflexivity|lra].
Qed.

(** C4: the calculator returns [net_distributable] as the quantization of
    [max(0, income - (expenses + salary + debt_due + rent + milk))], where
    [income] and [expenses] are the quantized arguments, [salary] is the
    quantized weekly salary or 0 with a substitute, [debt_due] is the
    quantization of [income * debt_percent], and [rent] and [milk] are the
    configured amounts in a last week of the month and 0 otherwise; these
    are the figures the result holds, and the returned amount is never
    negative. *)
Theorem net_distributable_floored (cfg : config) (advances_dict : gmap string Q)
    (total_income total_expenses : Q) (ws we : date) (substitute : bool) :
  positive_shares cfg →
  let salary :=
    if substitute then 0 else quant (FELIX_DAILY_SALARY cfg * WEEK_DAYS) in
  let debt_due := quant (quant total_income * DEBT_PERCENT cfg) in
  let month_rent := if is_last_week_of_month ws we then RENT cfg else 0 in
  let month_milk := if is_last_week_of_month ws we then MILK_BILL cfg else 0 in
  ∃ res,
    calculate_settlement_values cfg advances_dict total_income total_expenses
                                ws we substitute = Ok res
    ∧ income res = quant total_income
    ∧ expenses res = quant total_expenses
    ∧ salary_total res = salary
    ∧ debt res = debt_due
    ∧ rent res = month_rent
    ∧ milk res = month_milk
    ∧ net_distributable res
      = quant (Qmax 0 (quant total_income
                       - (quant total_expenses + salary + debt_due
                          + month_rent + month_milk)))
    ∧ debt res = quant (income res * DEBT_PERCENT cfg)
    ∧ net_distributable res
      = quant (Qmax 0 (income res
                       - (expenses res + salary_total res + debt res
                          + rent res + milk res)))
    ∧ 0 <= net_distributable res.
Proof.
  intros Hpos salary debt_due month_rent month_milk.
  rewrite calculate_settlement_values_unfold.
  destruct (provisional_payouts_returns cfg advances_dict total_income
              total_expenses ws we substitute Hpos) as (payouts & -> & _).
  assert (salary_of cfg substitute = salary) as Hsalary
    by (unfold salary_of, salary; by destruct substitute).
  eexists. split; [reflexivity|].
  cbn [income expenses salary_total debt rent milk net_distributable].
  rewrite Hsalary.
  assert (net_of cfg total_income total_expenses ws we substitute
          = quant (Qmax 0 (quant total_income
                           - (quant total_expenses + salary + debt_due
                              + month_rent + month_milk)))) as Hnet.
  { unfold net_of. rewrite Hsalary. apply quant_proper, max_zero. }
  repeat (split; [first [reflexivity | exact Hnet]|]).
  rewrite Hnet. apply quant_nonneg. apply Q.le_max_l.
Qed.

Lemma net_distributable_floored_witness :
  ∃ res,
    calculate_settlement_values app_config {[ "Bett"%string := 5000 ]}
      100000 20000 (Date 2024 1 8) (Date 2024 1 14) false = Ok res
    ∧ income res = quant 100000
    ∧ expenses res = quant 20000
    ∧ salary_total res = quant (FELIX_DAILY_SALARY app_config * WEEK_DAYS)
    ∧ debt res = quant (quant 100000 * DEBT_PERCENT app_config)
    ∧ rent res = 0
    ∧ milk res = 0
    ∧ net_distributable res
      = quant (Qmax 0 (quant 100000
                       - (quant 20000
                          + quant (FELIX_DAILY_SALARY app_config * WEEK_DAYS)
                          + quant (quant 100000 * DEBT_PERCENT app_config)
                          + 0 + 0)))
    ∧ debt res = quant (income res * DEBT_PERCENT app_config)
    ∧ net_distributable res
      = quant (Qmax 0 (income res
                       - (expenses res + salary_total res + debt res
                          + rent res + milk res)))
    ∧ 0 <= net_distributable res.
Proof.
  apply (net_distributable_floored app_config {[ "Bett"%string := 5000 ]}
           100000 20000 (Date 2024 1 8) (Date 2024 1 14) false).
  exact app_config_positive.
Defined.

(** ** The operator's salary *)

(** C3: Felix's final payout is the provisional payout plus the weekly
    salary ([quant(daily rate * 7)]) when the substitute flag is false; with
    the flag set the salary deduction is 0 and the final payout is the
    provisional payout alone; every other member's final payout is the
    provisional payout in both cases. *)
Theorem operator_salary_conditional (cfg : config) (advances_dict : gmap string Q)
    (total_income total_expenses : Q) (ws we : date) (substitute : bool) :
  positive_shares cfg →
  ∃ res payouts,
    calculate_settlement_values cfg advances_dict total_income total_expenses
                                ws we substitute = Ok res
    ∧ provisional_payouts cfg advances_dict total_income total_expenses
                          ws we substitute = Ok payouts
    ∧ salary_total res
      = (if substitute then 0 else quant (FELIX_DAILY_SALARY cfg * 7))
    ∧ net_payouts res !! "Felix"%string
      = (λ payout, if substitute then payout else payout + salary_total res)
          <$> payouts !! "Felix"%string
    ∧ ∀ name, name ≠ "Felix"%string →
        net_payouts res !! name = payouts !! name.
Proof.
  intros Hpos. rewrite calculate_settlement_values_unfold.
  destruct (provisional_payouts_returns cfg advances_dict total_income
              total_expenses ws we substitute Hpos) as (payouts & -> & _).
  eexists _, payouts. split; [reflexivity|]. split; [done|]. simpl.
  split; [by destruct substitute|]. split.
  - rewrite apply_salary_lookup. by destruct substitute.
  - intros name Hname. rewrite apply_salary_lookup.
    apply String.eqb_neq in Hname. rewrite Hname. simpl.
    by destruct (payouts !! name).
Qed.

Lemma operator_salary_conditional_witness :
  positive_shares app_config
  ∧ ∃ res payouts,
      calculate_settlement_values app_config {[ "Bett"%string := 5000 ]}
        100000 20000 (Date 2024 1 8) (Date 2024 1 14) false = Ok res
      ∧ provisional_payouts app_config {[ "Bett"%string := 5000 ]}
          100000 20000 (Date 2024 1 8) (Date 2024 1 14) false = Ok payouts
      ∧ salary_total res = quant (FELIX_DAILY_SALARY app_config * 7)
      ∧ net_payouts res !! "Felix"%string
        = (λ payout, payout + salary_total res) <$> payouts !! "Felix"%string
      ∧ ∀ name, name ≠ "Felix"%string →
          net_payouts res !! name = payouts !! name.
Proof.
  split; [exact app_config_positive|].
  apply (operator_salary_conditional app_config _ _ _ _ _ false).
  exact app_config_positive.
Defined.

(** C9: when Felix is over-advanced and there is no substitute, Felix's
    final payout is the full weekly salary: the share payout is zeroed and
    the salary is added on top of it, it does not offset the over-advance. *)
Theorem operator_salary_not_absorbed (cfg : config) (advances_dict : gmap string Q)
    (total_income total_expenses : Q) (ws we : date) (ratio : Q) :
  positive_shares cfg →
  FIXED_SHARES cfg !! "Felix"%string = Some ratio →
  over_advanced advances_dict
    (net_of cfg total_income total_expenses ws we false) "Felix" ratio = true →
  ∃ res payout,
    calculate_settlement_values cfg advances_dict total_income total_expenses
                                ws we false = Ok res
    ∧ net_payouts res !! "Felix"%string = Some payout
    ∧ payout == quant (FELIX_DAILY_SALARY cfg * 7)
    ∧ payout == salary_total res.
Proof.
  intros Hpos Hfelix Hover. rewrite calculate_settlement_values_unfold.
  destruct (provisional_payouts_returns cfg advances_dict total_income
              total_expenses ws we false Hpos) as (payouts & -> & Hpay).
  eexists _, _. split; [reflexivity|]. simpl.
  rewrite apply_salary_lookup, Hpay, Hfelix. simpl.
  unfold provisional_of. rewrite Hover.
  split; [reflexivity|]. unfold salary_of, WEEK_DAYS. simpl. split; ring.
Qed.

Lemma operator_salary_not_absorbed_witness :
  ∃ res payout,
    calculate_settlement_values app_config {[ "Felix"%string := 6000 ]}
      100000 20000 (Date 2024 1 8) (Date 2024 1 14) false = Ok res
    ∧ net_payouts res !! "Felix"%string = Some payout
    ∧ payout == quant (FELIX_DAILY_SALARY app_config * 7)
    ∧ payout == salary_total res.
Proof.
  apply (operator_salary_not_absorbed app_config _ _ _ _ _ (86 # 1000)).
  - exact app_config_positive.
  - reflexivity.
  - vm_compute. reflexivity.
Defined.

(** ** Every member over-advanced *)

Section AllOverAdvanced.

Variable cfg : config.
Variable advances_dict : gmap string Q.
Variable net : Q.

Hypothesis all_over :
  map_Forall (λ name ratio, over_advanced advances_dict net name ratio = true)
             (FIXED_SHARES cfg).

Lemma all_over_no_normal : normal_shares cfg advances_dict net = ∅.
Proof using all_over.
  apply map_empty. intros name. apply map_lookup_filter_None_2.
  destruct (FIXED_SHARES cfg !! name) as [ratio|] eqn:E; [right|by left].
  intros ? [= <-]. simpl. rewrite (all_over name ratio E). done.
Qed.

Lemma all_over_first_pass (name : string) :
  initial_payouts (first_pass cfg advances_dict net) !! name
  = (λ _, 0) <$> FIXED_SHARES cfg !! name.
Proof using all_over.
  destruct (first_pass_spec cfg advances_dict net) as (Hinit & _).
  rewrite Hinit. destruct (FIXED_SHARES cfg !! name) as [ratio|] eqn:E; [|done].
  simpl. by rewrite (all_over name ratio E).
Qed.

Lemma all_over_redistribute :
  redistribute cfg (first_pass cfg advances_dict net)
  = Ok (initial_payouts (first_pass cfg advances_dict net)).
Proof using all_over.
  destruct (redistribute_spec cfg advances_dict net) as (payouts & -> & Hpay).
  { intros Hne. by rewrite all_over_no_normal in Hne. }
  f_equal. apply map_eq. intros name. rewrite Hpay, all_over_first_pass.
  destruct (FIXED_SHARES cfg !! name) as [ratio|] eqn:E; [|done]. simpl.
  unfold provisional_of. by rewrite (all_over name ratio E).
Qed.

Lemma all_over_share_total :
  valid_share_total cfg (over_advance_members (first_pass cfg advances_dict net)) == 0.
Proof using all_over.
  rewrite valid_share_total_normal, all_over_no_normal, sum_values_empty.
  reflexivity.
Qed.

End AllOverAdvanced.

(** C10: when every configured member is over-advanced the calculator
    still returns: the divisor of the redistribution, the normal members'
    share total, is zero but no division is evaluated; every member's share
    payout is 0, the payouts of the first pass are left as they are, and the
    over-advance total (the sum of the recorded excesses) is added to no
    payout. *)
Theorem all_over_advanced_returns (cfg : config) (advances_dict : gmap string Q)
    (total_income total_expenses : Q) (ws we : date) (substitute : bool) :
  let net := net_of cfg total_income total_expenses ws we substitute in
  let st := first_pass cfg advances_dict net in
  map_Forall (λ name ratio, over_advanced advances_dict net name ratio = true)
             (FIXED_SHARES cfg) →
  ∃ res payouts,
    calculate_settlement_values cfg advances_dict total_income total_expenses
                                ws we substitute = Ok res
    ∧ provisional_payouts cfg advances_dict total_income total_expenses
                          ws we substitute = Ok payouts
    ∧ valid_share_total cfg (over_advance_members st) == 0
    ∧ payouts = initial_payouts st
    ∧ (∀ name, payouts !! name = (λ _, 0) <$> FIXED_SHARES cfg !! name)
    ∧ (∀ name, name ≠ "Felix"%string →
         net_payouts res !! name = (λ _, 0) <$> FIXED_SHARES cfg !! name)
    ∧ total_over_advance st == sum_values (over_advance_members st)
    ∧ (FIXED_SHARES cfg ≠ ∅ → 0 < total_over_advance st).
Proof.
  intros net st Hall. rewrite calculate_settlement_values_unfold.
  unfold provisional_payouts. fold net. fold st. unfold st.
  rewrite (all_over_redistribute cfg advances_dict net Hall). simpl.
  eexists _, _. split; [reflexivity|]. split; [reflexivity|]. simpl.
  split; [by apply all_over_share_total|]. split; [done|].
  split; [by apply all_over_first_pass|]. split; [|split].
  - intros name Hname. rewrite apply_salary_lookup, all_over_first_pass by done.
    apply String.eqb_neq in Hname. rewrite Hname. simpl.
    by destruct (FIXED_SHARES cfg !! name).
  - apply total_over_advance_sum.
  - intros Hne. apply map_choose in Hne as (name & ratio & Hname).
    apply (total_over_advance_pos cfg advances_dict net name ratio Hname).
    by apply (Hall name ratio).
Qed.

Lemma all_over_advanced_returns_witness :
  map_Forall (λ name ratio,
                over_advanced advances_of_all
                  (net_of app_config 0 0 (Date 2024 1 8) (Date 2024 1 14) false)
                  name ratio = true)
             (FIXED_SHARES app_config)
  ∧ ∃ res payouts,
      calculate_settlement_values app_config advances_of_all 0 0
        (Date 2024 1 8) (Date 2024 1 14) false = Ok res
      ∧ provisional_payouts app_config advances_of_all 0 0
          (Date 2024 1 8) (Date 2024 1 14) false = Ok payouts
      ∧ (∀ name, payouts !! name = (λ _, 0) <$> FIXED_SHARES app_config !! name).
Proof.
  assert (map_Forall (λ name ratio,
                over_advanced advances_of_all
                  (net_of app_config 0 0 (Date 2024 1 8) (Date 2024 1 14) false)
                  name ratio = true)
             (FIXED_SHARES app_config)) as Hall.
  { each_member. }
  split; [exact Hall|].
  destruct (all_over_advanced_returns app_config advances_of_all 0 0
              (Date 2024 1 8) (Date 2024 1 14) false Hall)
    as (res & payouts & Hres & Hprov & _ & _ & Hzero & _).
  exists res, payouts. auto.
Defined.

(** ** Redistribution of the over-advance *)

Section Conservation.

Variable cfg : config.
Variable advances_dict : gmap string Q.
Variable net : Q.

Local Abbreviation st := (first_pass cfg advances_dict net).

(** Each added amount is within half a cent of the member's exact
    proportion, so the amounts add up to the total within half a cent per
    normal member. *)
Lemma redistributed_conserves :
  ¬ valid_share_total cfg (over_advance_members st) == 0 →
  Qabs (sum_values (redistributed cfg advances_dict net) - total_over_advance st)
  <= (1 # 200) * count (normal_shares cfg advances_dict net).
Proof.
  intros Hnz. unfold redistributed.
  set (T := total_over_advance st).
  set (S := valid_share_total cfg (over_advance_members st)) in *.
  pose proof (sum_values_fmap_error (additional_share T S) (T / S) (1 # 200)
                (normal_shares cfg advances_dict net)) as Herr.
  assert (T / S * sum_values (normal_shares cfg advances_dict net) == T) as Hsum.
  { rewrite <- valid_share_total_normal. fold S. field. exact Hnz. }
  rewrite Hsum in Herr. apply Herr. intros v. unfold additional_share.
  assert (T / S * v == T * (v / S)) as -> by (field; exact Hnz).
  apply quant_error.
Qed.

End Conservation.

(** C1: with at least one over-advanced member and at least one member who
    is not, the calculator records each over-advanced member's excess
    [|gross_share - advance|], sets that member's provisional payout to 0
    and adds to each normal member's payout the quantized part of the
    over-advance total in proportion to the member's ratio over the normal
    members' ratio total; the added amounts equal the total within 0.01 per
    normal member. *)
Theorem over_advance_redistribution (cfg : config) (advances_dict : gmap string Q)
    (total_income total_expenses : Q) (ws we : date) (substitute : bool) :
  let net := net_of cfg total_income total_expenses ws we substitute in
  let st := first_pass cfg advances_dict net in
  let total := total_over_advance st in
  let share_total := valid_share_total cfg (over_advance_members st) in
  positive_shares cfg →
  (∃ name ratio, FIXED_SHARES cfg !! name = Some ratio
     ∧ over_advanced advances_dict net name ratio = true) →
  (∃ name ratio, FIXED_SHARES cfg !! name = Some ratio
     ∧ over_advanced advances_dict net name ratio = false) →
  ∃ payouts,
    provisional_payouts cfg advances_dict total_income total_expenses
                        ws we substitute = Ok payouts
    ∧ (∀ name ratio,
         FIXED_SHARES cfg !! name = Some ratio →
         over_advanced advances_dict net name ratio = true →
         (∃ excess, over_advance_members st !! name = Some excess
            ∧ excess == Qabs (gross_share net ratio - advance_of advances_dict name))
         ∧ payouts !! name = Some 0)
    ∧ (∀ name ratio,
         FIXED_SHARES cfg !! name = Some ratio →
         over_advanced advances_dict net name ratio = false →
         over_advance_members st !! name = None
         ∧ payouts !! name
           = Some (gross_share net ratio - advance_of advances_dict name
                   + additional_share total share_total ratio))
    ∧ total == sum_values (over_advance_members st)
    ∧ share_total == sum_values (normal_shares cfg advances_dict net)
    ∧ Qabs (sum_values (redistributed cfg advances_dict net) - total)
      <= (1 # 100) * count (normal_shares cfg advances_dict net).
Proof.
  intros net st total share_total Hpos (o & ro & Ho & Hoo) (n & rn & Hn & Hnn).
  destruct (provisional_payouts_returns cfg advances_dict total_income
              total_expenses ws we substitute Hpos) as (payouts & Hret & Hpay).
  fold net in Hpay.
  destruct (first_pass_spec cfg advances_dict net) as (_ & Hover & _).
  assert (0 < total) as Htotal
    by exact (total_over_advance_pos cfg advances_dict net o ro Ho Hoo).
  assert (0 < share_total) as Hshare.
  { apply (positive_shares_total cfg advances_dict net Hpos). intros Hempty.
    assert (normal_shares cfg advances_dict net !! n = Some rn) as Hin
      by (apply map_lookup_filter_Some_2; done).
    rewrite Hempty, lookup_empty in Hin. done. }
  exists payouts. split; [done|]. split; [|split; [|split; [|split]]].
  - intros name ratio Hname Hoa. split.
    + eexists. split; [by rewrite Hover, Hname; simpl; rewrite Hoa|].
      apply ltb_lt in Hoa.
      rewrite Qabs_neg by lra. reflexivity.
    + rewrite Hpay, Hname. simpl. unfold provisional_of. by rewrite Hoa.
  - intros name ratio Hname Hoa. split.
    + by apply (over_advance_members_None cfg advances_dict net name ratio).
    + rewrite Hpay, Hname. simpl. unfold provisional_of. rewrite Hoa.
      fold st. fold total. apply ltb_lt in Htotal. by rewrite Htotal.
  - apply total_over_advance_sum.
  - apply valid_share_total_normal.
  - pose proof (redistributed_conserves cfg advances_dict net) as Hc.
    fold st in Hc. fold total in Hc. fold share_total in Hc.
    pose proof (count_nonneg (normal_shares cfg advances_dict net)) as Hcnt.
    eapply Qle_trans; [apply Hc; lra|]. lra.
Qed.

Lemma over_advance_redistribution_witness :
  positive_shares app_config
  ∧ (∃ name ratio, FIXED_SHARES app_config !! name = Some ratio
       ∧ over_advanced advances_of_bett
           (net_of app_config 100000 20000 (Date 2024 1 8) (Date 2024 1 14) false)
           name ratio = true)
  ∧ (∃ name ratio, FIXED_SHARES app_config !! name = Some ratio
       ∧ over_advanced advances_of_bett
           (net_of app_config 100000 20000 (Date 2024 1 8) (Date 2024 1 14) false)
           name ratio = false)
  ∧ ∃ payouts,
      provisional_payouts app_config advances_of_bett 100000 20000
        (Date 2024 1 8) (Date 2024 1 14) false = Ok payouts
      ∧ payouts !! "Bett"%string = Some 0
      ∧ Qabs (sum_values
                (redistributed app_config advances_of_bett
                   (net_of app_config 100000 20000
                           (Date 2024 1 8) (Date 2024 1 14) false))
              - total_over_advance
                  (first_pass app_config advances_of_bett
                     (net_of app_config 100000 20000
                             (Date 2024 1 8) (Date 2024 1 14) false)))
        <= (1 # 100)
           * count (normal_shares app_config advances_of_bett
                      (net_of app_config 100000 20000
                              (Date 2024 1 8) (Date 2024 1 14) false)).
Proof.
  assert (∃ name ratio, FIXED_SHARES app_config !! name = Some ratio
       ∧ over_advanced advances_of_bett
           (net_of app_config 100000 20000 (Date 2024 1 8) (Date 2024 1 14) false)
           name ratio = true) as Hover.
  { exists "Bett"%string, (775 # 1000). split; vm_compute; reflexivity. }
  assert (∃ name ratio, FIXED_SHARES app_config !! name = Some ratio
       ∧ over_advanced advances_of_bett
           (net_of app_config 100000 20000 (Date 2024 1 8) (Date 2024 1 14) false)
           name ratio = false) as Hnormal.
  { exists "Willy"%string, (139 # 1000). split; vm_compute; reflexivity. }
  split; [exact app_config_positive|]. split; [exact Hover|].
  split; [exact Hnormal|].
  destruct (over_advance_redistribution app_config advances_of_bett 100000 20000
              (Date 2024 1 8) (Date 2024 1 14) false
              app_config_positive Hover Hnormal)
    as (payouts & Hret & Hzero & _ & _ & _ & Hsum).
  exists payouts. split; [exact Hret|]. split; [|exact Hsum].
  apply (Hzero "Bett"%string (775 # 1000)); vm_compute; reflexivity.
Defined.

(** C1 as stated fails when no member is left to receive the over-advance:
    with every member over-advanced the over-advance total is 30, nothing is
    added to any payout, and the tolerance for zero normal members is 0. *)
Lemma redistribution_needs_normal_member :
  let net := net_of app_config 0 0 (Date 2024 1 8) (Date 2024 1 14) false in
  let st := first_pass app_config advances_of_all net in
  (∃ name ratio, FIXED_SHARES app_config !! name = Some ratio
     ∧ over_advanced advances_of_all net name ratio = true)
  ∧ provisional_payouts app_config advances_of_all 0 0
      (Date 2024 1 8) (Date 2024 1 14) false = Ok (initial_payouts st)
  ∧ total_over_advance st == 30
  ∧ sum_values (redistributed app_config advances_of_all net) == 0
  ∧ count (normal_shares app_config advances_of_all net) == 0
  ∧ ¬ Qabs (sum_values (redistributed app_config advances_of_all net)
            - total_over_advance st)
      <= (1 # 100) * count (normal_shares app_config advances_of_all net).
Proof.
  intros net st. split; [|split; [|split; [|split; [|split]]]].
  - exists "Bett"%string, (775 # 1000). split; vm_compute; reflexivity.
  - vm_compute. reflexivity.
  - vm_compute. reflexivity.
  - vm_compute. reflexivity.
  - vm_compute. reflexivity.
  - apply Qlt_not_le. vm_compute. reflexivity.
Qed.

(** ** The accounting identity *)

Section Accounting.

Variable cfg : config.
Variable advances_dict : gmap string Q.
Variable net : Q.
Variable substitute : bool.

Local Abbreviation final_of := (final_payout_of cfg advances_dict net substitute).

Lemma final_of_value (name : string) (ratio : Q) :
  final_of name ratio
  == gross_share net ratio - advance_of advances_dict name
     + (if String.eqb name "Felix" then salary_of cfg substitute else 0).
Proof.
  unfold final_payout_of, salary_of.
  destruct (String.eqb name "Felix"), substitute; simpl; lra.
Qed.

(** Final payouts, advances and the salary paid add up to the gross shares. *)
Lemma final_payouts_sum (m : gmap string Q) :
  sum_values (map_imap (λ name ratio, Some (final_of name ratio)) m)
  + sum_values (map_imap (λ name _, Some (advance_of advances_dict name)) m)
  - match m !! "Felix"%string with
    | Some _ => salary_of cfg substitute
    | None => 0
    end
  == sum_values (gross_share net <$> m).
Proof.
  induction m as [|k v m Hk IH] using map_ind.
  - rewrite !map_imap_empty, fmap_empty, lookup_empty, !sum_values_empty.
    simpl. lra.
  - rewrite !(map_imap_insert_Some _ k v m _ eq_refl), fmap_insert.
    rewrite !sum_values_insert
      by (rewrite ?map_lookup_imap, ?lookup_fmap, Hk; done).
    rewrite <- IH, final_of_value.
    destruct (String.eqb k "Felix") eqn:E.
    + apply String.eqb_eq in E as ->. rewrite lookup_insert_eq, Hk. lra.
    + apply String.eqb_neq in E. rewrite lookup_insert_ne by done. lra.
Qed.

(** The gross shares add up to the distributable amount scaled by the
    ratio total, within half a cent per member. *)
Lemma gross_shares_sum :
  Qabs (sum_values (gross_share net <$> FIXED_SHARES cfg)
        - net * sum_values (FIXED_SHARES cfg))
  <= (1 # 200) * count (FIXED_SHARES cfg).
Proof.
  apply sum_values_fmap_error. intros v. unfold gross_share. apply quant_error.
Qed.

Hypothesis none_over :
  map_Forall (λ name ratio, over_advanced advances_dict net name ratio = false)
             (FIXED_SHARES cfg).

(** Without over-advance the redistribution branch is skipped. *)
Lemma none_over_redistribute :
  redistribute cfg (first_pass cfg advances_dict net)
  = Ok (initial_payouts (first_pass cfg advances_dict net)).
Proof using none_over.
  unfold redistribute.
  pose proof (total_over_advance_zero cfg advances_dict net none_over) as Hz.
  destruct (Dec.ltb 0 (total_over_advance (first_pass cfg advances_dict net)))
    eqn:E; [|done].
  apply ltb_lt in E. rewrite Hz in E. by apply Qlt_irrefl in E.
Qed.

Lemma none_over_final_payouts :
  apply_salary substitute (salary_of cfg substitute)
               (initial_payouts (first_pass cfg advances_dict net))
  = map_imap (λ name ratio, Some (final_of name ratio)) (FIXED_SHARES cfg).
Proof using none_over.
  apply map_eq. intros name.
  destruct (first_pass_spec cfg advances_dict net) as (Hinit & _).
  rewrite apply_salary_lookup, Hinit, map_lookup_imap.
  destruct (FIXED_SHARES cfg !! name) as [ratio|] eqn:E; [|done]. simpl.
  rewrite (none_over name ratio E). unfold final_payout_of.
  by destruct (String.eqb name "Felix" && negb substitute).
Qed.

End Accounting.

(** C2: when no member is over-advanced and the share ratios add up to 1,
    the final payouts, together with the advances counted against the
    members and less the salary paid to Felix, add up to [net_distributable]
    within 0.01 per member. *)
Theorem payouts_accounting_identity (cfg : config) (advances_dict : gmap string Q)
    (total_income total_expenses : Q) (ws we : date) (substitute : bool) :
  let net := net_of cfg total_income total_expenses ws we substitute in
  sum_values (FIXED_SHARES cfg) == 1 →
  map_Forall (λ name ratio, over_advanced advances_dict net name ratio = false)
             (FIXED_SHARES cfg) →
  ∃ res,
    calculate_settlement_values cfg advances_dict total_income total_expenses
                                ws we substitute = Ok res
    ∧ Qabs (sum_values (net_payouts res)
            + member_advances cfg advances_dict
            - match FIXED_SHARES cfg !! "Felix"%string with
              | Some _ => salary_total res
              | None => 0
              end
            - net_distributable res)
      <= (1 # 100) * count (FIXED_SHARES cfg).
Proof.
  intros net Hone Hnone. rewrite calculate_settlement_values_unfold.
  unfold provisional_payouts. fold net.
  rewrite (none_over_redistribute cfg advances_dict net Hnone).
  eexists. split; [reflexivity|].
  cbn [net_payouts salary_total net_distributable].
  rewrite (none_over_final_payouts cfg advances_dict net substitute Hnone).
  unfold member_advances.
  pose proof (final_payouts_sum cfg advances_dict net substitute
                (FIXED_SHARES cfg)) as Hsum.
  pose proof (gross_shares_sum cfg net) as Herr.
  pose proof (count_nonneg (FIXED_SHARES cfg)) as Hcnt.
  rewrite Hone in Herr. apply Qabs_Qle_condition in Herr.
  apply Qabs_Qle_condition. split; lra.
Qed.

Lemma payouts_accounting_identity_witness :
  sum_values (FIXED_SHARES app_config) == 1
  ∧ map_Forall (λ name ratio,
                  over_advanced {[ "Bett"%string := 5000 ]}
                    (net_of app_config 100000 20000
                            (Date 2024 1 8) (Date 2024 1 14) false)
                    name ratio = false)
               (FIXED_SHARES app_config)
  ∧ ∃ res,
      calculate_settlement_values app_config {[ "Bett"%string := 5000 ]}
        100000 20000 (Date 2024 1 8) (Date 2024 1 14) false = Ok res
      ∧ Qabs (sum_values (net_payouts res)
              + member_advances app_config {[ "Bett"%string := 5000 ]}
              - match FIXED_SHARES app_config !! "Felix"%string with
                | Some _ => salary_total res
                | None => 0
                end
              - net_distributable res)
        <= (1 # 100) * count (FIXED_SHARES app_config).
Proof.
  assert (sum_values (FIXED_SHARES app_config) == 1) as Hone
    by (vm_compute; reflexivity).
  assert (map_Forall (λ name ratio,
                  over_advanced {[ "Bett"%string := 5000 ]}
                    (net_of app_config 100000 20000
                            (Date 2024 1 8) (Date 2024 1 14) false)
                    name ratio = false)
               (FIXED_SHARES app_config)) as Hnone.
  { each_member. }
  split; [exact Hone|]. split; [exact Hnone|].
  exact (payouts_accounting_identity app_config {[ "Bett"%string := 5000 ]}
           100000 20000 (Date 2024 1 8) (Date 2024 1 14) false Hone Hnone).
Defined.

(** C2 as stated fails on the example scenario of the specification: no
    member is over-advanced, the distributable amount is 63000, and the
    final payouts add up to 65000 (Bett's advance of 5000 is deducted and
    Felix's salary of 7000 is added). *)
Lemma payouts_do_not_sum_to_net :
  ∃ res,
    calculate_settlement_values app_config {[ "Bett"%string := 5000 ]}
      100000 20000 (Date 2024 1 8) (Date 2024 1 14) false = Ok res
    ∧ map_Forall (λ name ratio,
                    over_advanced {[ "Bett"%string := 5000 ]}
                      (net_distributable res) name ratio = false)
                 (FIXED_SHARES app_config)
    ∧ net_distributable res == 63000
    ∧ sum_values (net_payouts res) == 65000
    ∧ ¬ Qabs (sum_values (net_payouts res) - net_distributable res)
        <= (1 # 100) * count (FIXED_SHARES app_config).
Proof.
  eexists. split; [vm_compute; reflexivity|].
  split; [|split; [|split]].
  - each_member.
  - vm_compute. reflexivity.
  - vm_compute. reflexivity.
  - apply Qlt_not_le. vm_compute. reflexivity.
Qed.

(** ** Month-end deductions *)

Section MonthEnd.

Lemma days_in_month_bounds (y m : Z) : (28 ≤ Cal.days_in_month y m ≤ 31)%Z.
Proof.
  unfold Cal.days_in_month.
  destruct (m =? 2)%Z; [destruct (Cal.isleap y); lia|].
  destruct ((m =? 4)%Z || (m =? 6)%Z || (m =? 9)%Z || (m =? 11)%Z); lia.
Qed.

(** Adding days that stay within the month only moves the day number. *)
Lemma add_days_within (d : date) (k : nat) :
  (day d + Z.of_nat k ≤ Cal.days_in_month (year d) (month d))%Z →
  Cal.add_days k d = Date (year d) (month d) (day d + Z.of_nat k).
Proof.
  induction k as [|k IH]; intros Hk.
  - simpl. rewrite Z.add_0_r. by destruct d.
  - simpl Cal.add_days. rewrite IH by lia. unfold Cal.next_day. simpl.
    destruct (Z.ltb_spec (day d + Z.of_nat k)
                (Cal.days_in_month (year d) (month d))); [|lia].
    f_equal. lia.
Qed.

(** Adding up to six days past the end of the month lands in the first
    days of the following month. *)
Lemma add_days_rollover (d : date) (k : nat) :
  (day d ≤ Cal.days_in_month (year d) (month d))%Z →
  (k ≤ 6)%nat →
  (Cal.days_in_month (year d) (month d) < day d + Z.of_nat k)%Z →
  Cal.add_days k d
  = Date (year (first_of_next_month d)) (month (first_of_next_month d))
         (day d + Z.of_nat k - Cal.days_in_month (year d) (month d)).
Proof.
  intros Hd. induction k as [|k IH]; intros Hk Hover; [lia|].
  simpl Cal.add_days.
  destruct (Z.le_gt_cases (day d + Z.of_nat k)
              (Cal.days_in_month (year d) (month d))) as [Hin|Hout].
  - rewrite add_days_within by done.
    assert (day d + Z.of_nat k = Cal.days_in_month (year d) (month d))%Z
      as Heq by lia.
    unfold Cal.next_day, first_of_next_month. simpl. rewrite Heq.
    rewrite Z.ltb_irrefl.
    destruct (month d <? 12)%Z; simpl; f_equal; lia.
  - rewrite IH by lia. unfold Cal.next_day. simpl.
    pose proof (days_in_month_bounds (year (first_of_next_month d))
                  (month (first_of_next_month d))) as Hb.
    destruct (Z.ltb_spec
                (day d + Z.of_nat k - Cal.days_in_month (year d) (month d))
                (Cal.days_in_month (year (first_of_next_month d))
                                   (month (first_of_next_month d)))); [|lia].
    f_equal. lia.
Qed.

Lemma leb_true (a b : date) :
  Cal.leb a b = true
  ↔ (year a < year b
     ∨ year a = year b
       ∧ (month a < month b ∨ month a = month b ∧ day a ≤ day b))%Z.
Proof.
  unfold Cal.leb.
  rewrite !orb_true_iff, !andb_true_iff, !orb_true_iff, !andb_true_iff.
  rewrite !Z.ltb_lt, !Z.eqb_eq, Z.leb_le. done.
Qed.

(** For a week that starts on [ws] and ends six days later, the test of
    the code holds exactly when one of the seven days is the last day of
    the month of [ws]. *)
Lemma last_week_contains_month_end (ws : date) :
  Cal.valid ws →
  is_last_week_of_month ws (Cal.add_days 6 ws) = true
  ↔ ∃ k, (k ≤ 6)%nat
      ∧ Cal.add_days k ws
        = Date (year ws) (month ws) (Cal.days_in_month (year ws) (month ws)).
Proof.
  intros (Hy & Hm & Hd). unfold is_last_week_of_month.
  rewrite andb_true_iff, !leb_true.
  destruct (Z.le_gt_cases (day ws + 6)
              (Cal.days_in_month (year ws) (month ws))) as [Hin|Hout].
  - rewrite (add_days_within ws 6 Hin). cbn [year month day]. split.
    + intros [_ Hle]. exists 6%nat. split; [done|].
      rewrite (add_days_within ws 6 Hin). f_equal. lia.
    + intros (k & Hk & Heq).
      rewrite add_days_within in Heq by lia. injection Heq as Heq. lia.
  - rewrite (add_days_rollover ws 6) by (done || lia).
    cbn [year month day]. split.
    + intros _.
      exists (Z.to_nat (Cal.days_in_month (year ws) (month ws) - day ws)).
      split; [lia|]. rewrite add_days_within by lia. f_equal. lia.
    + intros _. split; [lia|]. unfold first_of_next_month.
      destruct (Z.ltb_spec (month ws) 12); simpl; lia.
Qed.

(** A week that ends before the last day of the month of its first day. *)
Lemma interior_week_not_last (ws : date) :
  Cal.valid ws →
  (day ws + 6 < Cal.days_in_month (year ws) (month ws))%Z →
  is_last_week_of_month ws (Cal.add_days 6 ws) = false.
Proof.
  intros Hvalid Hin.
  destruct (is_last_week_of_month ws (Cal.add_days 6 ws)) eqn:E; [|done].
  apply last_week_contains_month_end in E as (k & Hk & Heq); [|done].
  rewrite add_days_within in Heq by lia. injection Heq as Heq. lia.
Qed.

End MonthEnd.

(** C8: for a week that starts on [ws] and ends six days later, rent and
    milk are the configured amounts when one of its days is the last
    calendar day of the month of [ws], and both are 0 otherwise; the week
    2024-01-29 to 2024-02-04, the week of January 31st, is such a week, and
    a week that ends before the last day of its month is not. *)
Theorem month_end_deductions (cfg : config) (advances_dict : gmap string Q)
    (total_income total_expenses : Q) (ws : date) (substitute : bool) :
  let we := Cal.add_days 6 ws in
  let last_day :=
    Date (year ws) (month ws) (Cal.days_in_month (year ws) (month ws)) in
  positive_shares cfg →
  Cal.valid ws →
  ∃ res,
    calculate_settlement_values cfg advances_dict total_income total_expenses
                                ws we substitute = Ok res
    ∧ ((∃ k, (k ≤ 6)%nat ∧ Cal.add_days k ws = last_day) →
       rent res = RENT cfg ∧ milk res = MILK_BILL cfg)
    ∧ (¬ (∃ k, (k ≤ 6)%nat ∧ Cal.add_days k ws = last_day) →
       rent res = 0 ∧ milk res = 0)
    ∧ ((day ws + 6 < Cal.days_in_month (year ws) (month ws))%Z →
       rent res = 0 ∧ milk res = 0)
    ∧ week_start_end_for_date (Date 2024 1 31) = (Date 2024 1 29, Date 2024 2 4)
    ∧ is_last_week_of_month (Date 2024 1 29) (Date 2024 2 4) = true
    ∧ is_last_week_of_month (Date 2024 1 8) (Date 2024 1 14) = false.
Proof.
  intros we last_day Hpos Hvalid. rewrite calculate_settlement_values_unfold.
  destruct (provisional_payouts_returns cfg advances_dict total_income
              total_expenses ws we substitute Hpos) as (payouts & -> & _).
  eexists. split; [reflexivity|]. cbn [rent milk].
  pose proof (last_week_contains_month_end ws Hvalid) as Hiff.
  fold we in Hiff. fold last_day in Hiff.
  split; [|split; [|split; [|split; [|split]]]].
  - intros Hk. apply Hiff in Hk. by rewrite Hk.
  - intros Hk. destruct (is_last_week_of_month ws we); [|done].
    destruct Hk. by apply Hiff.
  - intros Hin. unfold we. by rewrite interior_week_not_last.
  - vm_compute. reflexivity.
  - vm_compute. reflexivity.
  - vm_compute. reflexivity.
Qed.

Lemma month_end_deductions_witness :
  positive_shares app_config
  ∧ Cal.valid (Date 2024 1 29)
  ∧ ∃ res,
      calculate_settlement_values app_config ∅ 100000 20000
        (Date 2024 1 29) (Cal.add_days 6 (Date 2024 1 29)) false = Ok res
      ∧ rent res = RENT app_config ∧ milk res = MILK_BILL app_config.
Proof.
  assert (Cal.valid (Date 2024 1 29)) as Hvalid by (vm_compute; intuition discriminate).
  split; [exact app_config_positive|]. split; [exact Hvalid|].
  destruct (month_end_deductions app_config ∅ 100000 20000 (Date 2024 1 29) false
              app_config_positive Hvalid) as (res & Hres & Hlast & _).
  exists res. split; [exact Hres|]. apply Hlast.
  exists 2%nat. split; [lia|]. vm_compute. reflexivity.
Defined.

(** ** The debt ledger *)

Section DebtLedger.

Lemma apply_payment_outstanding (debt_due : Q) (d : debt_state) :
  0 < remaining_debt d →
  Ledger.apply_payment debt_due d
  = if Qle_bool (remaining_debt d) debt_due
    then (Debt (total_debt d) 0, remaining_debt d)
    else (Debt (total_debt d) (remaining_debt d - debt_due), debt_due).
Proof.
  intros Hpos. unfold Ledger.apply_payment.
  apply ltb_lt in Hpos. by rewrite Hpos.
Qed.

Lemma apply_payment_settled (debt_due : Q) (d : debt_state) :
  remaining_debt d == 0 →
  Ledger.apply_payment debt_due d
  = (Debt (total_debt d + debt_due) (remaining_debt d + debt_due), 0).
Proof.
  intros Hzero. unfold Ledger.apply_payment.
  assert (Dec.ltb 0 (remaining_debt d) = false) as ->; [|done].
  apply ltb_ge. lra.
Qed.

(** Booking a non-negative deduction keeps the invariant. *)
Lemma apply_payment_invariant (debt_due : Q) (d : debt_state) :
  0 <= debt_due →
  debt_invariant d →
  debt_invariant (Ledger.apply_payment debt_due d).1.
Proof.
  intros Hdue [Hlo Hhi]. unfold Ledger.apply_payment, debt_invariant.
  destruct (Dec.ltb 0 (remaining_debt d)) eqn:E.
  - destruct (Qle_bool (remaining_debt d) debt_due) eqn:F; simpl.
    + lra.
    + assert (¬ remaining_debt d <= debt_due) as Hlt.
      { intros Hle. apply Qle_bool_iff in Hle. congruence. }
      apply Qnot_le_lt in Hlt. lra.
  - apply ltb_ge in E. simpl. lra.
Qed.

(** Reversing a settlement keeps the invariant. *)
Lemma reverse_payment_invariant (debt_deduction : Q) (d d' : debt_state) :
  debt_invariant d →
  Ledger.reverse_payment debt_deduction (Some d) = Some d' →
  debt_invariant d'.
Proof.
  intros [Hlo Hhi]. unfold Ledger.reverse_payment, debt_invariant.
  destruct (Dec.ltb 0 debt_deduction) eqn:E.
  - apply ltb_lt in E.
    destruct (Dec.ltb (total_debt d) (remaining_debt d + debt_deduction)) eqn:F;
      intros [= <-]; simpl.
    + lra.
    + apply ltb_ge in F. lra.
  - intros [= <-]. done.
Qed.

End DebtLedger.

(** C7: with an outstanding balance the applied payment is
    [min(debt_due, remaining_debt)], the balance goes down by exactly that
    amount and stays positive when [debt_due] falls short of it; with a
    balance of zero [debt_due] is added to both [total_debt] and
    [remaining_debt] and no payment is applied. *)
Theorem debt_payment_branches (debt_due : Q) (d : debt_state) :
  let booked := Ledger.apply_payment debt_due d in
  let actual_payment := booked.2 in
  (0 < remaining_debt d →
     actual_payment == Qmin debt_due (remaining_debt d)
     ∧ remaining_debt booked.1 == remaining_debt d - actual_payment
     ∧ total_debt booked.1 = total_debt d
     ∧ (debt_due < remaining_debt d → 0 < remaining_debt booked.1))
  ∧ (remaining_debt d == 0 →
     total_debt booked.1 = total_debt d + debt_due
     ∧ remaining_debt booked.1 = remaining_debt d + debt_due
     ∧ actual_payment = 0).
Proof.
  intros booked actual_payment. unfold actual_payment, booked. split.
  - intros Hpos. rewrite apply_payment_outstanding by done.
    destruct (Qle_bool (remaining_debt d) debt_due) eqn:E; simpl.
    + apply Qle_bool_iff in E. rewrite Q.min_r by done.
      split; [reflexivity|]. split; [ring|]. split; [done|].
      intros Hlt. lra.
    + assert (debt_due < remaining_debt d) as Hlt.
      { apply Qnot_le_lt. intros Hle. apply Qle_bool_iff in Hle. congruence. }
      rewrite Q.min_l by lra. split; [reflexivity|]. split; [reflexivity|].
      split; [done|]. intros _. lra.
  - intros Hzero. by rewrite apply_payment_settled.
Qed.

Lemma debt_payment_branches_witness :
  Ledger.apply_payment 150 (Debt 1000 400) = (Debt 1000 250, 150)
  ∧ (Ledger.apply_payment 150 (Debt 1000 400)).2 == Qmin 150 400
  ∧ Ledger.apply_payment 150 (Debt 1000 0) = (Debt (1000 + 150) (0 + 150), 0).
Proof.
  split; [reflexivity|]. split.
  - apply (debt_payment_branches 150 (Debt 1000 400)). reflexivity.
  - pose proof (debt_payment_branches 150 (Debt 1000 0)) as [_ Hzero].
    destruct Hzero as (Ht & Hr & Ha); [reflexivity|].
    destruct (Ledger.apply_payment 150 (Debt 1000 0)) as [[t r] a].
    simpl in *. by subst.
Defined.

(** C6 fails on the admin update: [api_update_debt] stores the requested
    balance unchecked, so a balance above the total breaks
    [0 <= remaining_debt <= total_debt], which the two settlement routes keep
    ([apply_payment_invariant], [reverse_payment_invariant]). *)
Lemma update_debt_breaks_invariant :
  debt_invariant (Debt 1000 400)
  ∧ Ledger.api_update_debt "admin" 5000 (Some (Debt 1000 400))
    = (Some (Debt 1000 5000), true)
  ∧ ¬ debt_invariant (Debt 1000 5000).
Proof.
  split; [|split].
  - split; vm_compute; discriminate.
  - reflexivity.
  - intros [_ Hhi]. vm_compute in Hhi. by apply Hhi.
Qed.

(** C5 fails on the route: [validate_settlement_data] reports a negative
    income, but [api_create_settlement] never calls it and computes
    a settlement from the request. *)
Lemma create_settlement_skips_validation :
  validate_settlement_data (λ _ _, false) (-100) 0 (Date 2024 1 10)
  = ["Income must be greater than 0"%string;
     "Income cannot be less than expenses"%string]
  ∧ ∃ res row,
      api_create_settlement app_config (λ _ _, ∅) None
        {| req_ref_date := Date 2024 1 10;
           req_total_income := -100;
           req_total_expenses := 0;
           req_felix_substitute := false |}
      = Ok (res, row)
      ∧ income res == -100
      ∧ debt res == -10
      ∧ net_distributable res == 0
      ∧ remaining_debt row == -10.
Proof.
  split; [vm_compute; reflexivity|].
  eexists _, _. split; [vm_compute; reflexivity|].
  repeat split; vm_compute; reflexivity.
Qed.

(** ** Further properties of the calculator and the ledger *)

(** Quantization yields whole cents within half a cent of the amount, and
    quantizing twice changes nothing. *)
Theorem quant_rounds_to_cents (v : Q) :
  is_cents (quant v)
  ∧ Qabs (quant v - v) <= 1 # 200
  ∧ quant (quant v) == quant v.
Proof.
  split; [apply quant_is_cents|]. split; [apply quant_error|].
  apply quant_cents, quant_is_cents.
Qed.

(** When the deductions fit into the income and rent and milk are
    configured in whole cents, the distributable amount is exactly the
    quantized income less the deductions: the quantized expenses, the
    weekly salary (0 with a substitute), the quantized debt percentage of
    the income, and rent and milk in a last week of the month. *)
Theorem net_distributable_exact (cfg : config) (advances_dict : gmap string Q)
    (total_income total_expenses : Q) (ws we : date) (substitute : bool) :
  let deductions :=
    quant total_expenses
    + (if substitute then 0 else quant (FELIX_DAILY_SALARY cfg * WEEK_DAYS))
    + quant (quant total_income * DEBT_PERCENT cfg)
    + (if is_last_week_of_month ws we then RENT cfg else 0)
    + (if is_last_week_of_month ws we then MILK_BILL cfg else 0) in
  positive_shares cfg →
  is_cents (RENT cfg) →
  is_cents (MILK_BILL cfg) →
  deductions <= quant total_income →
  ∃ res,
    calculate_settlement_values cfg advances_dict total_income total_expenses
                                ws we substitute = Ok res
    ∧ net_distributable res == quant total_income - deductions
    ∧ expenses res + salary_total res + debt res + rent res + milk res
      = deductions
    ∧ net_distributable res
      == income res
         - (expenses res + salary_total res + debt res + rent res + milk res).
Proof.
  intros deductions Hpos Hrent Hmilk Hfit.
  rewrite calculate_settlement_values_unfold.
  destruct (provisional_payouts_returns cfg advances_dict total_income
              total_expenses ws we substitute Hpos) as (payouts & -> & _).
  assert (salary_of cfg substitute
          = if substitute then 0
            else quant (FELIX_DAILY_SALARY cfg * WEEK_DAYS)) as Hsalary
    by (unfold salary_of; by destruct substitute).
  eexists. split; [reflexivity|].
  cbn [net_distributable income expenses salary_total debt rent milk].
  unfold net_of. rewrite Hsalary. fold deductions.
  assert (Dec.max (quant total_income - deductions) 0
          = quant total_income - deductions) as ->.
  { unfold Dec.max.
    assert (Dec.ltb (quant total_income - deductions) 0 = false) as ->; [|done].
    apply ltb_ge. lra. }
  assert (quant (quant total_income - deductions)
          == quant total_income - deductions) as Hexact.
  { apply quant_cents. apply is_cents_minus; [apply quant_is_cents|].
    unfold deductions.
    repeat apply is_cents_plus; try apply quant_is_cents.
    - destruct substitute; [apply is_cents_zero|apply quant_is_cents].
    - destruct (is_last_week_of_month ws we); [done|apply is_cents_zero].
    - destruct (is_last_week_of_month ws we); [done|apply is_cents_zero]. }
  split; [exact Hexact|]. split; [reflexivity|exact Hexact].
Qed.

Lemma net_distributable_exact_witness :
  ∃ res,
    calculate_settlement_values app_config {[ "Bett"%string := 5000 ]}
      100000 20000 (Date 2024 1 29) (Date 2024 2 4) false = Ok res
    ∧ net_distributable res
      == quant 100000
         - (quant 20000 + quant (FELIX_DAILY_SALARY app_config * WEEK_DAYS)
            + quant (quant 100000 * DEBT_PERCENT app_config)
            + RENT app_config + MILK_BILL app_config)
    ∧ expenses res + salary_total res + debt res + rent res + milk res
      = quant 20000 + quant (FELIX_DAILY_SALARY app_config * WEEK_DAYS)
        + quant (quant 100000 * DEBT_PERCENT app_config)
        + RENT app_config + MILK_BILL app_config
    ∧ net_distributable res
      == income res
         - (expenses res + salary_total res + debt res + rent res + milk res).
Proof.
  apply (net_distributable_exact app_config {[ "Bett"%string := 5000 ]}
           100000 20000 (Date 2024 1 29) (Date 2024 2 4) false).
  - exact app_config_positive.
  - exists 1200000%Z. reflexivity.
  - exists 150000%Z. reflexivity.
  - vm_compute. discriminate.
Defined.

(** The example scenario of the specification: income 100000, expenses
    20000, Bett has drawn 5000, no month end, no substitute. *)
Theorem example_scenario :
  ∃ res,
    calculate_settlement_values app_config {[ "Bett"%string := 5000 ]}
      100000 20000 (Date 2024 1 8) (Date 2024 1 14) false = Ok res
    ∧ salary_total res == 7000 ∧ debt res == 10000
    ∧ rent res == 0 ∧ milk res == 0
    ∧ net_distributable res == 63000
    ∧ gross_shares res
      = <["Bett" := quant 48825]>
          (<["Felix" := quant 5418]> (<["Willy" := quant 8757]> ∅))
    ∧ (∃ bett felix willy,
         net_payouts res !! "Bett"%string = Some bett ∧ bett == 43825
         ∧ net_payouts res !! "Felix"%string = Some felix ∧ felix == 5418 + 7000
         ∧ net_payouts res !! "Willy"%string = Some willy ∧ willy == 8757).
Proof.
  eexists. split; [vm_compute; reflexivity|].
  repeat (split; [vm_compute; reflexivity|]).
  eexists _, _, _. repeat split; vm_compute; reflexivity.
Qed.

(** The over-advance example of the specification: Bett has drawn 60000
    against a gross share of 48825; the excess of 11175 goes to Felix and
    Willy in the proportion 0.086 : 0.139. *)
Theorem over_advance_example :
  let net := net_of app_config 100000 20000 (Date 2024 1 8) (Date 2024 1 14) false in
  let st := first_pass app_config advances_of_bett net in
  over_advance_members st = {[ "Bett"%string := - (quant 48825 - quant 60000) ]}
  ∧ total_over_advance st == 11175
  ∧ valid_share_total app_config (over_advance_members st) == 225 # 1000
  ∧ redistributed app_config advances_of_bett net
    = <["Felix" := quant (427133 # 100)]> (<["Willy" := quant (690367 # 100)]> ∅)
  ∧ ∃ payouts,
      provisional_payouts app_config advances_of_bett 100000 20000
        (Date 2024 1 8) (Date 2024 1 14) false = Ok payouts
      ∧ (∃ bett felix willy,
           payouts !! "Bett"%string = Some bett ∧ bett == 0
           ∧ payouts !! "Felix"%string = Some felix
           ∧ felix == 5418 + (427133 # 100)
           ∧ payouts !! "Willy"%string = Some willy
           ∧ willy == 8757 + (690367 # 100)).
Proof.
  intros net st.
  repeat (split; [vm_compute; reflexivity|]).
  eexists. split; [vm_compute; reflexivity|].
  eexists _, _, _. repeat split; vm_compute; reflexivity.
Qed.

(** The two settlement routes keep [0 <= remaining_debt <= total_debt]:
    booking a non-negative debt deduction, and deleting a settlement. *)
Theorem settlement_routes_keep_debt_invariant
    (debt_due debt_deduction : Q) (d : debt_state) :
  0 <= debt_due →
  debt_invariant d →
  debt_invariant (Ledger.apply_payment debt_due d).1
  ∧ ∀ role is_completed d',
      (Ledger.api_delete_settlement role is_completed debt_deduction (Some d)).1
      = Some d' →
      debt_invariant d'.
Proof.
  intros Hdue Hinv. split; [by apply apply_payment_invariant|].
  intros role is_completed d'. unfold Ledger.api_delete_settlement.
  destruct (negb (String.eqb role "admin")); [by intros [= <-]|].
  destruct is_completed; [by intros [= <-]|]. simpl.
  by apply reverse_payment_invariant.
Qed.

Lemma settlement_routes_keep_debt_invariant_witness :
  debt_invariant (Ledger.apply_payment 150 (Debt 1000 400)).1
  ∧ ∀ role is_completed d',
      (Ledger.api_delete_settlement role is_completed 150 (Some (Debt 1000 400))).1
      = Some d' →
      debt_invariant d'.
Proof.
  apply (settlement_routes_keep_debt_invariant 150 150 (Debt 1000 400)).
  - vm_compute. discriminate.
  - split; vm_compute; discriminate.
Defined.

(** * The calendar *)

Section Ordinals.

Local Open Scope Z_scope.

Lemma isleap_spec (y : Z) :
  Cal.isleap y = true ↔ y mod 4 = 0 ∧ (y mod 100 ≠ 0 ∨ y mod 400 = 0).
Proof.
  unfold Cal.isleap.
  rewrite andb_true_iff, orb_true_iff, negb_true_iff, !Z.eqb_eq, Z.eqb_neq.
  done.
Qed.

Lemma days_before_year_succ (y : Z) :
  Cal.days_before_year (y + 1) = Cal.days_before_year y + year_length y.
Proof.
  unfold Cal.days_before_year, year_length.
  replace (y + 1 - 1) with y by lia.
  destruct (Cal.isleap y) eqn:E.
  - apply isleap_spec in E. Z.div_mod_to_equations. lia.
  - assert (¬ (y mod 4 = 0 ∧ (y mod 100 ≠ 0 ∨ y mod 400 = 0))) as H.
    { intros H. apply isleap_spec in H. congruence. }
    Z.div_mod_to_equations. lia.
Qed.

Lemma days_before_year_nonneg (y : Z) : 1 ≤ y → 0 ≤ Cal.days_before_year y.
Proof. unfold Cal.days_before_year. intros. Z.div_mod_to_equations. lia. Qed.

Lemma days_before_year_pos (y : Z) : 1 < y → 0 < Cal.days_before_year y.
Proof. unfold Cal.days_before_year. intros. Z.div_mod_to_equations. lia. Qed.

Lemma month_cases (m : Z) :
  1 ≤ m ≤ 12 →
  m = 1 ∨ m = 2 ∨ m = 3 ∨ m = 4 ∨ m = 5 ∨ m = 6 ∨ m = 7 ∨ m = 8 ∨ m = 9
  ∨ m = 10 ∨ m = 11 ∨ m = 12.
Proof. lia. Qed.

Lemma days_before_month_succ (y m : Z) :
  1 ≤ m ≤ 12 →
  Cal.days_before_month y (m + 1)
  = Cal.days_before_month y m + Cal.days_in_month y m.
Proof.
  intros Hm. apply month_cases in Hm.
  destruct Hm as [->|[->|[->|[->|[->|[->|[->|[->|[->|[->|[->| ->]]]]]]]]]]];
    unfold Cal.days_before_month, Cal.days_in_month; simpl;
    destruct (Cal.isleap y); lia.
Qed.

Lemma days_before_month_first (y : Z) : Cal.days_before_month y 1 = 0.
Proof. reflexivity. Qed.

Lemma days_before_month_year (y : Z) :
  Cal.days_before_month y 12 + 31 = year_length y.
Proof.
  unfold Cal.days_before_month, Cal.days_in_month, year_length; simpl.
  destruct (Cal.isleap y); lia.
Qed.

Lemma days_before_month_nonneg (y m : Z) :
  1 ≤ m ≤ 12 → 0 ≤ Cal.days_before_month y m.
Proof.
  intros Hm. apply month_cases in Hm.
  destruct Hm as [->|[->|[->|[->|[->|[->|[->|[->|[->|[->|[->| ->]]]]]]]]]]];
    unfold Cal.days_before_month, Cal.days_in_month; simpl;
    destruct (Cal.isleap y); lia.
Qed.

Lemma toordinal_pos (d : date) : Cal.valid d → 1 ≤ Cal.toordinal d.
Proof.
  intros (Hy & Hm & Hd). unfold Cal.toordinal.
  pose proof (days_before_year_nonneg _ Hy).
  pose proof (days_before_month_nonneg (year d) _ Hm). lia.
Qed.

Lemma next_day_spec (d : date) :
  Cal.valid d →
  Cal.valid (Cal.next_day d)
  ∧ Cal.toordinal (Cal.next_day d) = Cal.toordinal d + 1
  ∧ Cal.prev_day (Cal.next_day d) = d.
Proof.
  destruct d as [y m dd]. intros (Hy & Hm & Hd). simpl in *.
  unfold Cal.next_day, Cal.prev_day, Cal.toordinal, Cal.valid. simpl.
  pose proof (days_in_month_bounds y m) as Hb.
  destruct (Z.ltb_spec dd (Cal.days_in_month y m)); simpl.
  - destruct (Z.ltb_spec 1 (dd + 1)); [|lia].
    split; [lia|]. split; [lia|]. f_equal. lia.
  - assert (dd = Cal.days_in_month y m) as -> by lia.
    destruct (Z.ltb_spec m 12); simpl.
    + pose proof (days_in_month_bounds y (m + 1)).
      rewrite days_before_month_succ by lia.
      destruct (Z.ltb_spec 1 (m + 1)); [|lia].
      split; [lia|]. split; [lia|]. by rewrite Z.add_simpl_r.
    + assert (m = 12) as -> by lia.
      rewrite days_before_year_succ, <- days_before_month_year.
      change (Cal.days_in_month y 12) with 31.
      change (Cal.days_in_month (y + 1) 1) with 31.
      change (Cal.days_before_month (y + 1) 1) with 0.
      destruct (Z.ltb_spec 1 1); [lia|]. simpl.
      split; [lia|]. split; [lia|]. by rewrite Z.add_simpl_r.
Qed.

Lemma prev_day_spec (d : date) :
  Cal.valid d →
  1 < Cal.toordinal d →
  Cal.valid (Cal.prev_day d)
  ∧ Cal.toordinal (Cal.prev_day d) = Cal.toordinal d - 1
  ∧ Cal.next_day (Cal.prev_day d) = d.
Proof.
  destruct d as [y m dd]. intros (Hy & Hm & Hd). simpl in *.
  unfold Cal.next_day, Cal.prev_day, Cal.toordinal, Cal.valid. simpl.
  intros Hord. pose proof (days_in_month_bounds y m) as Hb.
  destruct (Z.ltb_spec 1 dd); simpl.
  - destruct (Z.ltb_spec (dd - 1) (Cal.days_in_month y m)); [|lia].
    split; [lia|]. split; [lia|]. f_equal. lia.
  - assert (dd = 1) as -> by lia.
    destruct (Z.ltb_spec 1 m); simpl.
    + pose proof (days_in_month_bounds y (m - 1)).
      pose proof (days_before_month_succ y (m - 1)) as Hs.
      rewrite Z.sub_add in Hs. rewrite Hs by lia.
      rewrite Z.ltb_irrefl.
      destruct (Z.ltb_spec (m - 1) 12); [|lia].
      split; [lia|]. split; [lia|]. by rewrite Z.sub_add.
    + assert (m = 1) as -> by lia.
      change (Cal.days_before_month y 1) with 0 in *.
      assert (1 < y) as Hy1.
      { destruct (Z.eq_dec y 1) as [->|]; [|lia]. vm_compute in Hord. done. }
      pose proof (days_before_year_succ (y - 1)) as Hs.
      rewrite Z.sub_add in Hs. rewrite Hs, <- days_before_month_year.
      change (Cal.days_in_month (y - 1) 12) with 31. simpl.
      split; [lia|]. split; [lia|]. by rewrite Z.sub_add.
Qed.

Lemma add_days_spec (n : nat) (d : date) :
  Cal.valid d →
  Cal.valid (Cal.add_days n d)
  ∧ Cal.toordinal (Cal.add_days n d) = Cal.toordinal d + Z.of_nat n
  ∧ Cal.sub_days n (Cal.add_days n d) = d.
Proof.
  intros Hd. induction n as [|n (Hv & Ho & Hr)].
  - simpl. split; [done|]. split; [lia|done].
  - destruct (next_day_spec _ Hv) as (Hv' & Ho' & Hr').
    simpl Cal.add_days. split; [done|]. split; [lia|].
    assert (∀ k x, Cal.sub_days k (Cal.prev_day x) = Cal.prev_day (Cal.sub_days k x))
      as Hcomm by (induction k; intros; simpl; congruence).
    simpl. rewrite <- Hcomm, Hr'. done.
Qed.

Lemma sub_days_spec (n : nat) (d : date) :
  Cal.valid d →
  Z.of_nat n < Cal.toordinal d →
  Cal.valid (Cal.sub_days n d)
  ∧ Cal.toordinal (Cal.sub_days n d) = Cal.toordinal d - Z.of_nat n
  ∧ Cal.add_days n (Cal.sub_days n d) = d.
Proof.
  intros Hd. induction n as [|n IH]; intros Hn.
  - simpl. split; [done|]. split; [lia|done].
  - destruct IH as (Hv & Ho & Hr); [lia|].
    destruct (prev_day_spec _ Hv) as (Hv' & Ho' & Hr'); [lia|].
    simpl Cal.sub_days. split; [done|]. split; [lia|].
    assert (∀ k x, Cal.add_days k (Cal.next_day x) = Cal.next_day (Cal.add_days k x))
      as Hcomm by (induction k; intros; simpl; congruence).
    simpl. rewrite <- Hcomm, Hr'. done.
Qed.

Lemma weekday_bounds (d : date) : 0 ≤ Cal.weekday d ≤ 6.
Proof. unfold Cal.weekday. pose proof (Z.mod_pos_bound (Cal.toordinal d + 6) 7). lia. Qed.

Lemma weekday_below_ordinal (d : date) :
  Cal.valid d → Cal.weekday d < Cal.toordinal d.
Proof.
  intros Hd. pose proof (toordinal_pos d Hd). unfold Cal.weekday.
  Z.div_mod_to_equations. lia.
Qed.

End Ordinals.

Lemma week_start_end_spec (ref_date : date) :
  Cal.valid ref_date →
  let week := week_start_end_for_date ref_date in
  Cal.valid week.1 ∧ Cal.valid week.2
  ∧ Cal.weekday week.1 = 0%Z ∧ Cal.weekday week.2 = 6%Z
  ∧ week.2 = Cal.add_days 6 week.1
  ∧ (0 ≤ Cal.weekday ref_date ≤ 6)%Z
  ∧ Cal.add_days (Z.to_nat (Cal.weekday ref_date)) week.1 = ref_date.
Proof.
  intros Hd week. unfold week, week_start_end_for_date. cbn [fst snd].
  pose proof (weekday_bounds ref_date) as Hwd.
  pose proof (weekday_below_ordinal ref_date Hd) as Hlt.
  destruct (sub_days_spec (Z.to_nat (Cal.weekday ref_date)) ref_date Hd)
    as (Hv & Ho & Hr); [lia|].
  destruct (add_days_spec 6 _ Hv) as (Hv6 & Ho6 & _).
  split; [exact Hv|]. split; [exact Hv6|].
  split; [|split; [|split; [reflexivity|split; [exact Hwd|exact Hr]]]].
  - unfold Cal.weekday at 1. rewrite Ho. unfold Cal.weekday.
    Z.div_mod_to_equations. lia.
  - unfold Cal.weekday at 1. rewrite Ho6, Ho. unfold Cal.weekday.
    Z.div_mod_to_equations. lia.
Qed.

Section Weeks.

Lemma add_days_add (a b : nat) (d : date) :
  Cal.add_days (a + b) d = Cal.add_days a (Cal.add_days b d).
Proof. induction a as [|a IH]; simpl; congruence. Qed.

Lemma sub_add_days_comm (k n : nat) (d : date) :
  Cal.valid d →
  (Z.of_nat k < Cal.toordinal d)%Z →
  Cal.sub_days k (Cal.add_days n d) = Cal.add_days n (Cal.sub_days k d).
Proof.
  intros Hd Hk. destruct (sub_days_spec k d Hd Hk) as (Hv & _ & Hr).
  rewrite <- Hr at 1. rewrite <- add_days_add, Nat.add_comm, add_days_add.
  destruct (add_days_spec n _ Hv) as (Hvn & _ & _).
  by destruct (add_days_spec k _ Hvn) as (_ & _ & ->).
Qed.

Lemma weekday_add_days (n : nat) (d : date) :
  Cal.valid d →
  Cal.weekday (Cal.add_days n d) = ((Cal.weekday d + Z.of_nat n) mod 7)%Z.
Proof.
  intros Hd. destruct (add_days_spec n d Hd) as (_ & Ho & _).
  unfold Cal.weekday. rewrite Ho. Z.div_mod_to_equations. lia.
Qed.

End Weeks.

(** Every day of a week has the same week: the date [k <= 6] days after
    the Monday of a date's week is given the week of that date. *)
Theorem week_is_shared (ref_date : date) (k : nat) :
  Cal.valid ref_date →
  (k ≤ 6)%nat →
  week_start_end_for_date
    (Cal.add_days k (week_start_end_for_date ref_date).1)
  = week_start_end_for_date ref_date.
Proof.
  intros Hd Hk.
  destruct (week_start_end_spec ref_date Hd) as (Hv & _ & Hmon & _).
  set (monday := (week_start_end_for_date ref_date).1) in *.
  unfold week_start_end_for_date at 1.
  rewrite (weekday_add_days k monday Hv), Hmon.
  replace ((0 + Z.of_nat k) mod 7)%Z with (Z.of_nat k)
    by (rewrite Z.mod_small; lia).
  rewrite Nat2Z.id.
  destruct (add_days_spec k monday Hv) as (_ & _ & ->). reflexivity.
Qed.

Lemma week_of_shifted_date (ref_date : date) (n : nat) :
  Cal.valid ref_date →
  week_start_end_for_date (Cal.add_days (n * 7) ref_date)
  = (Cal.add_days (n * 7) (week_start_end_for_date ref_date).1,
     Cal.add_days (n * 7) (week_start_end_for_date ref_date).2).
Proof.
  intros Hd. unfold week_start_end_for_date. cbn [fst snd].
  rewrite (weekday_add_days (n * 7) ref_date Hd).
  pose proof (weekday_bounds ref_date) as Hwd.
  pose proof (weekday_below_ordinal ref_date Hd) as Hlt.
  replace ((Cal.weekday ref_date + Z.of_nat (n * 7)) mod 7)%Z
    with (Cal.weekday ref_date).
  2:{ rewrite Nat2Z.inj_mul. change (Z.of_nat 7) with 7%Z.
      rewrite Z.mod_add by lia. rewrite Z.mod_small; lia. }
  rewrite sub_add_days_comm by (done || lia). f_equal.
  rewrite <- !add_days_add. f_equal. lia.
Qed.

(** The week of the last day of a month is a last week of the month: it
    is the week in which rent and the milk bill are deducted. *)
Theorem month_end_is_detected (ref_date : date) :
  Cal.valid ref_date →
  day ref_date = Cal.days_in_month (year ref_date) (month ref_date) →
  is_last_week_of_month (week_start_end_for_date ref_date).1
                        (week_start_end_for_date ref_date).2 = true.
Proof.
  intros Hd Hlast.
  destruct (week_start_end_spec ref_date Hd) as (Hv & _ & _ & _ & Hsun & Hwd & Hback).
  rewrite Hsun. apply last_week_contains_month_end; [done|].
  exists (Z.to_nat (Cal.weekday ref_date)). split; [lia|].
  rewrite Hback.
  assert (year (week_start_end_for_date ref_date).1 = year ref_date
          ∧ month (week_start_end_for_date ref_date).1 = month ref_date)
    as [-> ->]; [|destruct ref_date; simpl in *; congruence].
  unfold week_start_end_for_date. cbn [fst].
  pose proof (days_in_month_bounds (year ref_date) (month ref_date)).
  assert (∀ j : nat, (Z.of_nat j < day ref_date)%Z →
            Cal.sub_days j ref_date
            = Date (year ref_date) (month ref_date) (day ref_date - Z.of_nat j))
    as Hsub.
  { induction j as [|j IH]; intros Hj.
    - simpl. rewrite Z.sub_0_r. by destruct ref_date.
    - simpl Cal.sub_days. rewrite IH by lia. unfold Cal.prev_day. simpl.
      destruct (Z.ltb_spec 1 (day ref_date - Z.of_nat j)); [|lia].
      f_equal. lia. }
  rewrite Hsub by lia. done.
Qed.

(** For every date [week_start_end_for_date] returns two dates: a Monday
    and the Sunday six days after it, and the date is the day of the week
    that [weekday] counts from that Monday, so it lies in the week. *)
Theorem week_of_date (ref_date : date) :
  Cal.valid ref_date →
  let week := week_start_end_for_date ref_date in
  Cal.valid week.1 ∧ Cal.valid week.2
  ∧ Cal.weekday week.1 = 0%Z ∧ Cal.weekday week.2 = 6%Z
  ∧ week.2 = Cal.add_days 6 week.1
  ∧ (0 ≤ Cal.weekday ref_date ≤ 6)%Z
  ∧ Cal.add_days (Z.to_nat (Cal.weekday ref_date)) week.1 = ref_date.
Proof. exact (week_start_end_spec ref_date). Qed.

(** A date [n] weeks later has the week [n] weeks later. *)
Theorem week_shifts_by_weeks (ref_date : date) (n : nat) :
  Cal.valid ref_date →
  week_start_end_for_date (Cal.add_days (n * 7) ref_date)
  = (Cal.add_days (n * 7) (week_start_end_for_date ref_date).1,
     Cal.add_days (n * 7) (week_start_end_for_date ref_date).2).
Proof. exact (week_of_shifted_date ref_date n). Qed.

(** * The advance routes *)

Section Advances.

Lemma member_total_cons (a : weekly_advance) (l : list weekly_advance)
    (name : string) :
  member_total (a :: l) name
  = if decide (wa_member_name a = name)
    then member_total l name + wa_amount a else member_total l name.
Proof. reflexivity. Qed.

Lemma member_total_app (l1 l2 : list weekly_advance) (name : string) :
  member_total (l1 ++ l2) name == member_total l1 name + member_total l2 name.
Proof.
  induction l1 as [|a l1 IH].
  - change (member_total [] name) with 0. simpl app. lra.
  - rewrite <- app_comm_cons, !member_total_cons.
    destruct (decide _); rewrite IH; lra.
Qed.

(** The dictionary after the loop has run over the rows [l], started
    from [d]. *)
Lemma fold_advances_lookup (l : list weekly_advance) (d : gmap string Q)
    (name : string) :
  match foldl add_to_advances d l !! name with
  | Some v =>
      v == default 0 (d !! name) + member_total l name
      ∧ (is_Some (d !! name) ∨ Exists (λ a, wa_member_name a = name) l)
  | None =>
      d !! name = None ∧ Forall (λ a, wa_member_name a ≠ name) l
  end.
Proof.
  revert d. induction l as [|a l IH]; intros d.
  - simpl. destruct (d !! name) as [v|] eqn:E.
    + split; [change (member_total [] name) with 0; simpl; lra|]. left. eauto.
    + split; [done|constructor].
  - simpl foldl. specialize (IH (add_to_advances d a)).
    rewrite member_total_cons.
    destruct (foldl add_to_advances (add_to_advances d a) l !! name) as [v|].
    + destruct IH as [Hv Hin]. unfold add_to_advances in Hv, Hin.
      destruct (decide (wa_member_name a = name)) as [<-|Hne].
      * rewrite lookup_insert_eq in Hv. simpl in Hv.
        split; [lra|]. right. by constructor.
      * rewrite lookup_insert_ne in Hv, Hin by done.
        split; [done|]. destruct Hin as [Hin|Hin]; [by left|].
        right. by constructor.
    + destruct IH as [Hnone Hall]. unfold add_to_advances in Hnone.
      destruct (decide (wa_member_name a = name)) as [<-|Hne].
      * by rewrite lookup_insert_eq in Hnone.
      * rewrite lookup_insert_ne in Hnone by done. split; [done|].
        by constructor.
Qed.

End Advances.

(** A member is a key of the week's dictionary exactly when the member
    has an advance row for the week, and the value is the total of these
    rows. *)
Theorem weekly_advances_are_week_totals (table : list weekly_advance)
    (ws we : date) (name : string) :
  match get_weekly_advances table ws we !! name with
  | Some v =>
      v == member_total (advances_of_week table ws we) name
      ∧ ∃ a, a ∈ table ∧ wa_member_name a = name
          ∧ wa_week_start a = ws ∧ wa_week_end a = we
  | None =>
      ∀ a, a ∈ table → wa_week_start a = ws → wa_week_end a = we →
           wa_member_name a ≠ name
  end.
Proof.
  unfold get_weekly_advances.
  pose proof (fold_advances_lookup (advances_of_week table ws we) ∅ name) as H.
  destruct (foldl _ ∅ (advances_of_week table ws we) !! name) as [v|].
  - destruct H as [Hv Hin]. rewrite lookup_empty in Hv. simpl in Hv.
    split; [lra|]. destruct Hin as [Hin|Hin].
    + rewrite lookup_empty in Hin. by destruct Hin.
    + apply Exists_exists in Hin as (a & Ha & Hname).
      apply list_elem_of_filter in Ha as [[? ?] ?]. eauto 6.
  - destruct H as [_ Hall]. intros a Ha Hws Hwe.
    rewrite Forall_forall in Hall. apply Hall.
    apply list_elem_of_filter. done.
Qed.

Section AdvanceRoutes.

Lemma advances_of_week_snoc (table : list weekly_advance) (a : weekly_advance)
    (ws we : date) :
  advances_of_week (table ++ [a]) ws we
  = if decide (wa_week_start a = ws ∧ wa_week_end a = we)
    then advances_of_week table ws we ++ [a]
    else advances_of_week table ws we.
Proof.
  unfold advances_of_week. rewrite filter_app, filter_cons, filter_nil.
  destruct (decide _); [done|]. by rewrite app_nil_r.
Qed.

Lemma list_find_fresh (l : list weekly_advance) (a : weekly_advance) :
  Forall (λ b, wa_id b ≠ wa_id a) l →
  list_find (λ b, wa_id b = wa_id a) (l ++ [a]) = Some (length l, a)
  ∧ filter (λ b, wa_id b ≠ wa_id a) (l ++ [a]) = l.
Proof.
  induction 1 as [|b l Hb Hl [IHf IHr]]; simpl.
  - rewrite decide_True by done. split; [done|].
    rewrite filter_cons_False by (intros H; by apply H). done.
  - rewrite decide_False by done. rewrite IHf. simpl. split; [done|].
    rewrite filter_cons_True by done. by rewrite IHr.
Qed.

(** Removing the one row with a given key takes its amount off the
    total of its member and leaves the other totals. *)
Lemma member_total_remove (l : list weekly_advance) (a : weekly_advance)
    (name : string) :
  NoDup (wa_id <$> l) →
  a ∈ l →
  member_total l name
  == member_total (filter (λ b, wa_id b ≠ wa_id a) l) name
     + (if decide (wa_member_name a = name) then wa_amount a else 0).
Proof.
  induction l as [|b l IH]; intros Hnd Hin; [by apply not_elem_of_nil in Hin|].
  rewrite fmap_cons in Hnd. apply NoDup_cons in Hnd as [Hb Hnd].
  apply elem_of_cons in Hin as [->|Hin].
  - rewrite filter_cons_False by (intros H; by apply H).
    rewrite member_total_cons.
    assert (filter (λ b0, wa_id b0 ≠ wa_id b) l = l) as ->.
    { clear IH Hnd. induction l as [|c l IHl]; [done|].
      rewrite fmap_cons in Hb. apply not_elem_of_cons in Hb as [Hc Hb].
      rewrite filter_cons_True by done. by rewrite IHl. }
    destruct (decide _); lra.
  - assert (wa_id b ≠ wa_id a) as Hne.
    { intros Heq. apply Hb. rewrite Heq. by apply list_elem_of_fmap_2. }
    rewrite filter_cons_True by done. rewrite !member_total_cons.
    specialize (IH Hnd Hin). destruct (decide (wa_member_name b = name)); lra.
Qed.

End AdvanceRoutes.

(** [api_add_advance] records an advance exactly when the amount is
    positive and a member name is given.  The advance is then added to the
    member's entry of the current week's dictionary and to the member's
    outstanding advance; other members and other weeks stay as they were.
    A refused request changes nothing. *)
Theorem add_advance_effect (today : date) (new_id : Z) (member_name : string)
    (amount : Q) (db : advance_db) :
  let week := week_start_end_for_date today in
  let result := api_add_advance today new_id member_name amount db in
  let before := get_weekly_advances (advance_rows db) week.1 week.2 in
  if Dec.ltb 0 amount && negb (String.eqb member_name "") then
    result.2 = true
    ∧ get_weekly_advances (advance_rows result.1) week.1 week.2
      = <[member_name := default 0 (before !! member_name) + amount]> before
    ∧ (∀ ws we, (ws, we) ≠ week →
         get_weekly_advances (advance_rows result.1) ws we
         = get_weekly_advances (advance_rows db) ws we)
    ∧ outstanding_advance result.1 !! member_name
      = (λ outstanding, outstanding + amount)
          <$> outstanding_advance db !! member_name
    ∧ (∀ name, name ≠ member_name →
         outstanding_advance result.1 !! name = outstanding_advance db !! name)
  else result = (db, false).
Proof.
  intros week result before. unfold result, before, api_add_advance.
  destruct (week_start_end_for_date today) as [ws we] eqn:Hweek.
  unfold week. cbn [fst snd].
  destruct (Dec.ltb 0 amount && negb (String.eqb member_name "")); [|done].
  cbn [fst snd advance_rows outstanding_advance].
  split; [done|]. split; [|split; [|split]].
  - unfold get_weekly_advances. rewrite advances_of_week_snoc.
    cbn [wa_week_start wa_week_end]. rewrite decide_True by done.
    by rewrite foldl_app.
  - intros ws' we' Hne. unfold get_weekly_advances.
    rewrite advances_of_week_snoc. cbn [wa_week_start wa_week_end].
    rewrite decide_False; [done|]. intros [-> ->]. done.
  - destruct (outstanding_advance db !! member_name) eqn:E; simpl.
    + by rewrite lookup_insert_eq.
    + done.
  - intros name Hname.
    destruct (outstanding_advance db !! member_name); [|done].
    by rewrite lookup_insert_ne.
Qed.

(** Deleting the advance that was just added restores the rows and, up
    to numeric equality, the outstanding advances. *)
Theorem add_then_delete_advance (today : date) (new_id : Z)
    (member_name : string) (amount : Q) (db : advance_db) :
  0 < amount →
  member_name ≠ ""%string →
  Forall (λ a, wa_id a ≠ new_id) (advance_rows db) →
  ∃ db',
    api_delete_advance new_id
      (api_add_advance today new_id member_name amount db).1 = Some db'
    ∧ advance_rows db' = advance_rows db
    ∧ same_amounts (outstanding_advance db') (outstanding_advance db).
Proof.
  intros Hpos Hname Hfresh. unfold api_add_advance.
  destruct (week_start_end_for_date today) as [ws we].
  apply ltb_lt in Hpos. rewrite Hpos. apply String.eqb_neq in Hname.
  rewrite Hname. cbn [andb negb fst].
  unfold api_delete_advance. cbn [advance_rows outstanding_advance].
  set (row := {| wa_id := new_id; wa_member_name := member_name;
                 wa_amount := amount; wa_advance_date := today;
                 wa_week_start := ws; wa_week_end := we |}).
  destruct (list_find_fresh (advance_rows db) row Hfresh) as [Hfind Hrest].
  cbn [wa_id row] in Hfind, Hrest. rewrite Hfind.
  eexists. split; [reflexivity|]. cbn [advance_rows outstanding_advance].
  split; [exact Hrest|]. intros name. cbn [wa_member_name wa_amount row].
  destruct (outstanding_advance db !! member_name) as [o|] eqn:E.
  - rewrite lookup_insert_eq.
    destruct (decide (member_name = name)) as [<-|Hne].
    + rewrite lookup_insert_eq, E. constructor. ring.
    + rewrite !lookup_insert_ne by done.
      destruct (outstanding_advance db !! name); constructor; reflexivity.
  - rewrite E.
    destruct (outstanding_advance db !! name); constructor; reflexivity.
Qed.

(** Adding and deleting advances keep every member's outstanding advance
    equal to the total of the member's advance rows, and keep the row keys
    distinct when the new key is fresh. *)
Theorem advance_routes_keep_balances (today : date) (new_id advance_id : Z)
    (member_name : string) (amount : Q) (db : advance_db) :
  NoDup (wa_id <$> advance_rows db) →
  balances_consistent db →
  (Forall (λ a, wa_id a ≠ new_id) (advance_rows db) →
   NoDup (wa_id <$> advance_rows
            (api_add_advance today new_id member_name amount db).1))
  ∧ balances_consistent (api_add_advance today new_id member_name amount db).1
  ∧ ∀ db', api_delete_advance advance_id db = Some db' →
      NoDup (wa_id <$> advance_rows db') ∧ balances_consistent db'.
Proof.
  intros Hnd Hcons. split; [|split].
  - intros Hfresh. unfold api_add_advance.
    destruct (week_start_end_for_date today) as [ws we].
    destruct (_ && _); [|done]. cbn [fst advance_rows].
    rewrite fmap_app. apply NoDup_app. split; [done|]. split.
    + intros x Hx Hx2. simpl in Hx2. apply list_elem_of_singleton in Hx2 as ->.
      apply list_elem_of_fmap in Hx as (a & Heq & Ha).
      rewrite Forall_forall in Hfresh. by apply (Hfresh a Ha).
    + simpl. apply NoDup_singleton.
  - unfold api_add_advance.
    destruct (week_start_end_for_date today) as [ws we].
    destruct (_ && _); [|done]. cbn [fst].
    intros name out. cbn [advance_rows outstanding_advance]. intros Hout.
    rewrite member_total_app, member_total_cons.
    cbn [wa_member_name wa_amount]. change (member_total [] name) with 0.
    revert Hout.
    destruct (outstanding_advance db !! member_name) as [o|] eqn:E; intros Hout.
    + destruct (decide (member_name = name)) as [<-|Hne].
      * rewrite lookup_insert_eq in Hout. injection Hout as <-.
        rewrite (Hcons _ _ E). lra.
      * rewrite lookup_insert_ne in Hout by done.
        rewrite (Hcons _ _ Hout). lra.
    + destruct (decide (member_name = name)) as [<-|Hne];
        [congruence|]. rewrite (Hcons _ _ Hout). lra.
  - intros db'. unfold api_delete_advance.
    destruct (list_find _ (advance_rows db)) as [[i a]|] eqn:Hfind; [|done].
    apply list_find_Some in Hfind as (Hi & Hid & _).
    apply list_elem_of_lookup_2 in Hi. intros [= <-].
    cbn [advance_rows outstanding_advance]. split.
    + apply (NoDup_fmap_2_strong _); [|by apply NoDup_filter, (NoDup_fmap_1 wa_id)].
      intros x y Hx%list_elem_of_filter Hy%list_elem_of_filter Heq.
      destruct Hx as [_ Hx], Hy as [_ Hy].
      apply list_elem_of_lookup in Hx as [ix Hx], Hy as [iy Hy].
      assert (ix = iy) as ->; [|congruence].
      eapply NoDup_lookup; [exact Hnd| |]; rewrite list_lookup_fmap.
      * by rewrite Hx.
      * rewrite Hy. simpl. by rewrite Heq.
    + intros name out Hout. subst advance_id.
      pose proof (member_total_remove _ a name Hnd Hi) as Hrem.
      revert Hout.
      destruct (outstanding_advance db !! wa_member_name a) as [o|] eqn:E;
        intros Hout; cbn [advance_rows outstanding_advance] in Hout |- *.
      * destruct (decide (wa_member_name a = name)) as [<-|Hne].
        -- rewrite lookup_insert_eq in Hout. injection Hout as <-.
           pose proof (Hcons _ _ E). lra.
        -- rewrite lookup_insert_ne in Hout by done.
           pose proof (Hcons _ _ Hout). lra.
      * destruct (decide (wa_member_name a = name)) as [<-|Hne];
          [congruence|]. pose proof (Hcons _ _ Hout). lra.
Qed.

(** * The calculator on all inputs *)

Section Frame.

(** A loop over a dictionary only depends on what its body does on the
    dictionary's items. *)
Lemma map_fold_agree {B} (f g : string → Q → B → B) (b : B) (m : gmap string Q) :
  (∀ k v acc, m !! k = Some v → f k v acc = g k v acc) →
  map_fold f b m = map_fold g b m.
Proof.
  intros Hfg. rewrite !map_fold_foldr.
  assert (Forall (λ kv, m !! kv.1 = Some kv.2) (map_to_list m)) as Hall.
  { apply Forall_forall. intros [k v] Hkv. by apply elem_of_map_to_list. }
  induction Hall as [|[k v] l Hkv _ IH]; [done|].
  simpl. rewrite IH. by apply Hfg.
Qed.

Variable cfg : config.
Variables adv1 adv2 : gmap string Q.

Hypothesis same_advances :
  ∀ name, is_Some (FIXED_SHARES cfg !! name) →
          advance_of adv1 name = advance_of adv2 name.

Lemma first_pass_agree (net : Q) :
  first_pass cfg adv1 net = first_pass cfg adv2 net.
Proof using same_advances.
  unfold first_pass. apply map_fold_agree. intros name ratio st Hname.
  unfold first_pass_step.
  fold (advance_of adv1 name). fold (advance_of adv2 name).
  by rewrite same_advances.
Qed.

End Frame.

(** Advances of names outside the share table only show in
    [total_advances]: two advance dictionaries that agree, after
    quantization, on the configured members give the same settlement
    otherwise, and the same exception if the calculator raises. *)
Theorem advances_outside_shares_ignored (cfg : config)
    (adv1 adv2 : gmap string Q)
    (total_income total_expenses : Q) (ws we : date) (substitute : bool) :
  (∀ name, is_Some (FIXED_SHARES cfg !! name) →
           advance_of adv1 name = advance_of adv2 name) →
  calculate_settlement_values cfg adv2 total_income total_expenses ws we substitute
  = res ← calculate_settlement_values cfg adv1 total_income total_expenses
                                      ws we substitute;
    mret (with_total_advances (quant (sum_values adv2)) res).
Proof.
  intros Hsame. rewrite !calculate_settlement_values_unfold.
  unfold provisional_payouts.
  rewrite (first_pass_agree cfg adv1 adv2 Hsame).
  by destruct (redistribute cfg _).
Qed.

Section Signs.

Variable cfg : config.
Variable advances_dict : gmap string Q.
Variable net : Q.

Hypothesis shares_pos : positive_shares cfg.

Lemma additional_share_nonneg (name : string) (ratio : Q) :
  FIXED_SHARES cfg !! name = Some ratio →
  over_advanced advances_dict net name ratio = false →
  0 <= additional_share
         (total_over_advance (first_pass cfg advances_dict net))
         (valid_share_total cfg
            (over_advance_members (first_pass cfg advances_dict net)))
         ratio.
Proof using shares_pos.
  intros Hname Hnormal. unfold additional_share. apply quant_nonneg.
  pose proof (total_over_advance_nonneg cfg advances_dict net) as HT.
  assert (0 < valid_share_total cfg
                (over_advance_members (first_pass cfg advances_dict net)))
    as HS.
  { apply positive_shares_total; [done|]. intros Hempty.
    assert (normal_shares cfg advances_dict net !! name = Some ratio) as Hin
      by (apply map_lookup_filter_Some_2; done).
    rewrite Hempty, lookup_empty in Hin. done. }
  pose proof (shares_pos name ratio Hname) as Hr. simpl in Hr.
  apply Qmult_le_0_compat; [done|].
  apply Qlt_le_weak, Qlt_shift_div_l; [done|]. lra.
Qed.

Lemma provisional_of_nonneg (name : string) (ratio : Q) :
  FIXED_SHARES cfg !! name = Some ratio →
  0 <= provisional_of cfg advances_dict net name ratio.
Proof using shares_pos.
  intros Hname. unfold provisional_of.
  destruct (over_advanced advances_dict net name ratio) eqn:Hoa; [lra|].
  pose proof Hoa as Hge. apply ltb_ge in Hge.
  destruct (Dec.ltb 0 _); [|done].
  pose proof (additional_share_nonneg name ratio Hname Hoa). lra.
Qed.

End Signs.

(** With positive share ratios and a non-negative salary rate no gross
    share and no final payout is ever negative: an over-advanced member is
    paid 0 and the redistribution only adds to the other payouts. *)
Theorem payouts_never_negative (cfg : config) (advances_dict : gmap string Q)
    (total_income total_expenses : Q) (ws we : date) (substitute : bool) :
  positive_shares cfg →
  0 <= FELIX_DAILY_SALARY cfg →
  ∃ res,
    calculate_settlement_values cfg advances_dict total_income total_expenses
                                ws we substitute = Ok res
    ∧ map_Forall (λ _ gross, 0 <= gross) (gross_shares res)
    ∧ map_Forall (λ _ payout, 0 <= payout) (net_payouts res).
Proof.
  intros Hpos Hsalary. rewrite calculate_settlement_values_unfold.
  destruct (provisional_payouts_returns cfg advances_dict total_income
              total_expenses ws we substitute Hpos) as (payouts & -> & Hpay).
  eexists. split; [reflexivity|]. cbn [gross_shares net_payouts]. split.
  - intros name gross. rewrite fold_insert_lookup.
    destruct (FIXED_SHARES cfg !! name) as [ratio|] eqn:E; [|done].
    intros [= <-]. apply quant_nonneg.
    apply Qmult_le_0_compat; [|apply Qlt_le_weak, (Hpos name ratio E)].
    unfold net_of. apply quant_nonneg. rewrite max_zero. apply Q.le_max_l.
  - intros name payout. rewrite apply_salary_lookup, Hpay.
    destruct (FIXED_SHARES cfg !! name) as [ratio|] eqn:E; [|done]. simpl.
    pose proof (provisional_of_nonneg cfg advances_dict
                  (net_of cfg total_income total_expenses ws we substitute)
                  Hpos name ratio E) as Hp.
    assert (0 <= salary_of cfg substitute) as Hs.
    { unfold salary_of. destruct (negb substitute); [|lra].
      apply quant_nonneg. unfold WEEK_DAYS.
      apply Qmult_le_0_compat; [done|lra]. }
    destruct (String.eqb name "Felix" && negb substitute); intros [= <-]; lra.
Qed.

Section Items.

Variable calc : settlement_values.
Variable advances_dict : gmap string Q.

Lemma settlement_items_fold :
  (∀ name, is_Some (gross_shares calc !! name) →
           is_Some (net_payouts calc !! name)) →
  ∃ items,
    settlement_items calc advances_dict = Ok items
    ∧ length items = size (gross_shares calc)
    ∧ NoDup (si_member_name <$> items)
    ∧ ∀ item,
        item ∈ items
        ↔ ∃ name gross net_payout,
            gross_shares calc !! name = Some gross
            ∧ net_payouts calc !! name = Some net_payout
            ∧ item = item_of advances_dict name gross net_payout.
Proof.
  unfold settlement_items.
  apply (map_fold_weak_ind
    (λ acc (m : gmap string Q),
       (∀ name, is_Some (m !! name) → is_Some (net_payouts calc !! name)) →
       ∃ items, acc = Ok items
         ∧ length items = size m
         ∧ NoDup (si_member_name <$> items)
         ∧ ∀ item,
             item ∈ items
             ↔ ∃ name gross net_payout,
                 m !! name = Some gross
                 ∧ net_payouts calc !! name = Some net_payout
                 ∧ item = item_of advances_dict name gross net_payout)).
  - intros _. exists []. split; [done|]. split; [by rewrite map_size_empty|].
    split; [constructor|]. intros item. split.
    + by intros ?%not_elem_of_nil.
    + intros (name & gross & p & Hname & _). by rewrite lookup_empty in Hname.
  - intros k gross m acc Hk IH Hdom.
    destruct IH as (items & -> & Hlen & Hnd & Hitems).
    { intros name Hname. apply Hdom. rewrite lookup_insert_ne; [done|].
      intros ->. rewrite Hk in Hname. by destruct Hname. }
    destruct (Hdom k) as [p Hp]; [by rewrite lookup_insert_eq|].
    simpl. unfold getitem. rewrite Hp. simpl.
    eexists. split; [reflexivity|].
    split; [rewrite length_app, map_size_insert_None by done; simpl; lia|].
    split.
    + rewrite fmap_app. apply NoDup_app. split; [done|]. split.
      * intros x Hx Hx2. simpl in Hx2. apply list_elem_of_singleton in Hx2 as ->.
        apply list_elem_of_fmap in Hx as (item & Heq & Hitem).
        apply Hitems in Hitem as (name & g & q & Hname & _ & ->).
        simpl in Heq. congruence.
      * simpl. apply NoDup_singleton.
    + intros item. rewrite elem_of_app, list_elem_of_singleton, Hitems. split.
      * intros [(name & g & q & Hname & Hq & ->)| ->].
        -- exists name, g, q. split; [|done].
           rewrite lookup_insert_ne; [done|]. congruence.
        -- exists k, gross, p. by rewrite lookup_insert_eq.
      * intros (name & g & q & Hname & Hq & ->).
        destruct (decide (k = name)) as [<-|Hne].
        -- rewrite lookup_insert_eq in Hname. right.
           injection Hname as <-. rewrite Hp in Hq. by injection Hq as <-.
        -- rewrite lookup_insert_ne in Hname by done. left. eauto 6.
Qed.

End Items.

(** The item loop of the settlement route never misses a key: it writes
    one item per configured member, with the member's gross share (also in
    the [share_ratio] column), quantized advance and final payout. *)
Theorem settlement_items_cover_members (cfg : config)
    (advances_dict : gmap string Q)
    (total_income total_expenses : Q) (ws we : date) (substitute : bool) :
  positive_shares cfg →
  ∃ res items,
    calculate_settlement_values cfg advances_dict total_income total_expenses
                                ws we substitute = Ok res
    ∧ settlement_items res advances_dict = Ok items
    ∧ length items = size (FIXED_SHARES cfg)
    ∧ NoDup (si_member_name <$> items)
    ∧ ∀ item,
        item ∈ items
        ↔ ∃ name ratio net_payout,
            FIXED_SHARES cfg !! name = Some ratio
            ∧ net_payouts res !! name = Some net_payout
            ∧ item = item_of advances_dict name
                       (gross_share (net_distributable res) ratio) net_payout.
Proof.
  intros Hpos. rewrite calculate_settlement_values_unfold.
  destruct (provisional_payouts_returns cfg advances_dict total_income
              total_expenses ws we substitute Hpos) as (payouts & -> & Hpay).
  unfold mbind, outcome_bind. cbv beta iota.
  lazymatch goal with |- context [mret ?r] => set (res := r) end.
  exists res.
  assert (∀ name, gross_shares res !! name
                  = gross_share (net_distributable res) <$> FIXED_SHARES cfg !! name)
    as Hgross by (intros name; apply fold_insert_lookup).
  destruct (settlement_items_fold res advances_dict)
    as (items & Hitems & Hlen & Hnd & Hin).
  { intros name. rewrite Hgross. cbn [net_payouts res].
    rewrite apply_salary_lookup, Hpay.
    destruct (FIXED_SHARES cfg !! name); simpl; [eauto|by intros []]. }
  exists items. split; [reflexivity|]. split; [done|]. split.
  - assert (gross_shares res
            = gross_share (net_distributable res) <$> FIXED_SHARES cfg) as Heq
      by (apply map_eq; intros name; by rewrite Hgross, lookup_fmap).
    by rewrite Hlen, Heq, map_size_fmap.
  - split; [done|]. intros item. rewrite Hin. split.
    + intros (name & g & p & Hg & Hp & ->). rewrite Hgross in Hg.
      destruct (FIXED_SHARES cfg !! name) as [ratio|] eqn:E; [|done].
      injection Hg as <-. eauto 6.
    + intros (name & ratio & p & Hr & Hp & ->).
      exists name, (gross_share (net_distributable res) ratio), p.
      by rewrite Hgross, Hr.
Qed.

(** With nothing to distribute every gross share is 0, and a member who
    has drawn an advance is over-advanced by it and has a payout of 0
    before the salary step.  When some member has drawn an advance, the
    over-advance total is positive and the payout, before the salary step,
    of a member who has drawn nothing is the member's additional share
    [quant(total_over_advance * (ratio / valid_share_total))] of it. *)
Theorem nothing_to_distribute (cfg : config) (advances_dict : gmap string Q)
    (total_income total_expenses : Q) (ws we : date) (substitute : bool) :
  let net := net_of cfg total_income total_expenses ws we substitute in
  let st := first_pass cfg advances_dict net in
  positive_shares cfg →
  net == 0 →
  ∃ res payouts,
    calculate_settlement_values cfg advances_dict total_income total_expenses
                                ws we substitute = Ok res
    ∧ provisional_payouts cfg advances_dict total_income total_expenses
                          ws we substitute = Ok payouts
    ∧ (∀ name gross, gross_shares res !! name = Some gross → gross == 0)
    ∧ (∀ name ratio,
         FIXED_SHARES cfg !! name = Some ratio →
         0 < advance_of advances_dict name →
         payouts !! name = Some 0
         ∧ over_advance_members st !! name
           = Some (- (gross_share net ratio - advance_of advances_dict name)))
    ∧ (∀ name ratio other other_ratio,
         FIXED_SHARES cfg !! name = Some ratio →
         advance_of advances_dict name == 0 →
         FIXED_SHARES cfg !! other = Some other_ratio →
         0 < advance_of advances_dict other →
         ∃ payout,
           payouts !! name = Some payout
           ∧ payout
             == additional_share (total_over_advance st)
                  (valid_share_total cfg (over_advance_members st)) ratio
           ∧ 0 < total_over_advance st).
Proof.
  intros net st Hpos Hnet.
  assert (∀ ratio, gross_share net ratio == 0) as Hgross.
  { intros ratio. unfold gross_share.
    rewrite (quant_proper (net * ratio) 0); [reflexivity|]. rewrite Hnet. ring. }
  assert (∀ name ratio,
            over_advanced advances_dict net name ratio = true
            ↔ 0 < advance_of advances_dict name) as Hover.
  { intros name ratio. unfold over_advanced. rewrite ltb_lt.
    specialize (Hgross ratio). split; intros; lra. }
  rewrite calculate_settlement_values_unfold.
  destruct (provisional_payouts_returns cfg advances_dict total_income
              total_expenses ws we substitute Hpos) as (payouts & Hret & Hpay).
  rewrite Hret. fold net in Hpay.
  destruct (first_pass_spec cfg advances_dict net) as (_ & Hmembers & _).
  eexists _, payouts. split; [reflexivity|]. split; [done|].
  cbn [gross_shares]. split; [|split].
  - intros name gross. rewrite fold_insert_lookup.
    destruct (FIXED_SHARES cfg !! name); [|done]. intros [= <-]. apply Hgross.
  - intros name ratio Hname Hadv. apply (Hover name ratio) in Hadv.
    rewrite Hpay, Hname. simpl. unfold provisional_of. rewrite Hadv.
    split; [done|]. unfold st. by rewrite Hmembers, Hname; simpl; rewrite Hadv.
  - intros name ratio other other_ratio Hname Hzero Hother Hadv.
    apply (Hover other other_ratio) in Hadv.
    pose proof (total_over_advance_pos cfg advances_dict net other other_ratio
                  Hother Hadv) as Hpos_total.
    rewrite Hpay, Hname. simpl. unfold provisional_of.
    assert (over_advanced advances_dict net name ratio = false) as ->.
    { destruct (over_advanced advances_dict net name ratio) eqn:E; [|done].
      apply (Hover name ratio) in E. lra. }
    fold st. pose proof Hpos_total as Hb. apply ltb_lt in Hb. fold st in Hb.
    rewrite Hb. eexists. split; [reflexivity|]. split; [|done].
    specialize (Hgross ratio). lra.
Qed.

(** * Validation *)

Section QuantOrder.

Lemma round_half_up_mono (x y : Q) :
  x <= y → (Dec.round_half_up x <= Dec.round_half_up y)%Z.
Proof.
  intros Hxy. unfold Dec.round_half_up.
  destruct (Qle_bool 0 x) eqn:Ex, (Qle_bool 0 y) eqn:Ey.
  - apply Qfloor_resp_le. lra.
  - apply Qle_bool_iff in Ex.
    assert (¬ 0 <= y) by (intros H; apply Qle_bool_iff in H; congruence). lra.
  - apply Qle_bool_iff in Ey.
    assert (¬ 0 <= x) as Hx by (intros H; apply Qle_bool_iff in H; congruence).
    assert (0 <= Qfloor (- x + (1 # 2)))%Z
      by (change 0%Z with (Qfloor 0); apply Qfloor_resp_le; lra).
    assert (0 <= Qfloor (y + (1 # 2)))%Z
      by (change 0%Z with (Qfloor 0); apply Qfloor_resp_le; lra).
    lia.
  - assert (Qfloor (- y + (1 # 2)) <= Qfloor (- x + (1 # 2)))%Z
      by (apply Qfloor_resp_le; lra).
    lia.
Qed.

Lemma quant_mono (v w : Q) : v <= w → quant v <= quant w.
Proof.
  intros H. unfold quant, Qle. simpl.
  apply Z.mul_le_mono_nonneg_r; [lia|]. apply round_half_up_mono. lra.
Qed.

End QuantOrder.

Lemma validate_settlement_data_nil (existing : date → date → bool)
    (income expenses : Q) (ref_date : date) :
  validate_settlement_data existing income expenses ref_date = []
  ↔ 0 < income ∧ 0 <= expenses ∧ expenses <= income
    ∧ existing (week_start_end_for_date ref_date).1
               (week_start_end_for_date ref_date).2 = false.
Proof.
  unfold validate_settlement_data.
  destruct (week_start_end_for_date ref_date) as [ws we]. cbn [fst snd].
  destruct (Qle_bool income 0) eqn:E1, (Dec.ltb expenses 0) eqn:E2,
    (Dec.ltb income expenses) eqn:E3, (existing ws we) eqn:E4;
    simpl;
    try (apply Qle_bool_iff in E1);
    try (assert (¬ income <= 0) as E1'
           by (intros H; apply Qle_bool_iff in H; congruence));
    try (apply ltb_lt in E2); try (apply ltb_ge in E2);
    try (apply ltb_lt in E3); try (apply ltb_ge in E3);
    (split; [intros H; try discriminate H
            |intros (H1 & H2 & H3 & H4); try discriminate H4; try lra]).
  - repeat split; first [lra | done].
  - done.
Qed.

(** [validate_settlement_data] reports no error exactly when the income
    is positive, the expenses are not negative and not above the income, and
    no settlement is stored for the week. *)
Theorem validation_accepts_exactly (existing : date → date → bool)
    (income expenses : Q) (ref_date : date) :
  validate_settlement_data existing income expenses ref_date = []
  ↔ 0 < income ∧ 0 <= expenses ∧ expenses <= income
    ∧ existing (week_start_end_for_date ref_date).1
               (week_start_end_for_date ref_date).2 = false.
Proof. apply validate_settlement_data_nil. Qed.

(** A request that passes [validate_settlement_data] is booked without
    harm to the ledger: with positive share ratios and a non-negative debt
    percentage the route returns, its figures are not negative, the
    expenses stay below the income, and a [Debt] row that satisfies
    [0 <= remaining_debt <= total_debt] still does. *)
Theorem validated_settlement_keeps_debt (cfg : config)
    (existing : date → date → bool)
    (get_advances : date → date → gmap string Q)
    (row : option debt_state) (data : settlement_request) :
  positive_shares cfg →
  0 <= DEBT_PERCENT cfg →
  debt_invariant (Ledger.first_or_new row) →
  validate_settlement_data existing (req_total_income data)
                           (req_total_expenses data) (req_ref_date data) = [] →
  ∃ res row',
    api_create_settlement cfg get_advances row data = Ok (res, row')
    ∧ debt_invariant row'
    ∧ 0 <= expenses res ∧ expenses res <= income res ∧ 0 <= debt res.
Proof.
  intros Hpos Hpct Hinv Hvalid.
  apply validate_settlement_data_nil in Hvalid as (Hinc & Hexp & Hle & _).
  unfold api_create_settlement.
  destruct (week_start_end_for_date (req_ref_date data)) as [ws we].
  rewrite calculate_settlement_values_unfold.
  destruct (provisional_payouts_returns cfg (get_advances ws we)
              (req_total_income data) (req_total_expenses data) ws we
              (req_felix_substitute data) Hpos) as (payouts & -> & _).
  unfold mbind, outcome_bind, mret, outcome_ret. cbv beta iota.
  lazymatch goal with |- context [Ledger.apply_payment (debt ?r)] =>
    set (res := r) end.
  assert (0 <= debt res) as Hdebt.
  { cbn [debt res]. apply quant_nonneg.
    apply Qmult_le_0_compat; [|done]. apply quant_nonneg. lra. }
  pose proof (apply_payment_invariant (debt res) _ Hdebt Hinv) as Hkept.
  destruct (Ledger.apply_payment (debt res) (Ledger.first_or_new row))
    as [row' actual].
  exists res, row'. split; [reflexivity|]. split; [exact Hkept|].
  cbn [expenses income res]. split; [by apply quant_nonneg|].
  split; [by apply quant_mono|exact Hdebt].
Qed.


(** * Upcoming weeks, averages and completed settlements *)

Section Upcoming.

Variable today : date.
Variable table : list settlement_row.
Hypothesis today_valid : Cal.valid today.

Local Abbreviation monday := (week_start_end_for_date today).1.

Lemma week_of_later_date (i : nat) :
  week_start_end_for_date (Cal.add_days (i * 7) today)
  = (Cal.add_days (i * 7) monday, Cal.add_days 6 (Cal.add_days (i * 7) monday)).
Proof.
  rewrite week_of_shifted_date by done. f_equal.
  destruct (week_start_end_spec today today_valid) as (_ & _ & _ & _ & -> & _).
  rewrite <- !add_days_add. f_equal. lia.
Qed.

Lemma upcoming_fold (l : list nat) (acc : list upcoming_week) :
  foldl (λ upcoming i,
           let next_date := Cal.add_days (i * 7) today in
           let '(week_start, week_end) := week_start_end_for_date next_date in
           if settlement_of_week table week_start then upcoming
           else upcoming ++
                [{| up_week_start := week_start;
                    up_week_end := week_end;
                    up_is_last_week :=
                      is_last_week_of_month week_start week_end |}])
        acc l
  = acc ++ (upcoming_entry monday <$>
            filter (λ i, settlement_of_week table (Cal.add_days (i * 7) monday) = false) l).
Proof.
  revert acc. induction l as [|i l IH]; intros acc.
  - by rewrite filter_nil, app_nil_r.
  - cbn [foldl]. rewrite IH. cbv zeta. rewrite week_of_later_date.
    rewrite filter_cons.
    destruct (settlement_of_week table _) eqn:E.
    + by rewrite decide_False by done.
    + rewrite decide_True by done. rewrite fmap_cons, <- app_assoc. done.
Qed.

End Upcoming.

(** [get_upcoming_settlements(limit)] lists, in order, the weeks that
    start [0, 1, ..., limit - 1] weeks after the Monday of today's week
    and have no stored settlement; each entry runs from that Monday to the
    Sunday six days later. *)
Theorem upcoming_weeks_are_unsettled (today : date)
    (table : list settlement_row) (limit : nat) :
  Cal.valid today →
  let monday := (week_start_end_for_date today).1 in
  get_upcoming_settlements today table limit
  = upcoming_entry monday <$>
      filter (λ i, settlement_of_week table (Cal.add_days (i * 7) monday) = false)
             (seq 0 limit).
Proof.
  intros Hd monday. unfold get_upcoming_settlements.
  by rewrite (upcoming_fold today table Hd).
Qed.

(** Every week [get_upcoming_settlements] lists starts on a Monday, has
    no stored settlement, and is listed once; there are at most [limit]
    of them, and exactly [limit] when no settlement is stored. *)
Theorem upcoming_weeks_are_mondays (today : date)
    (table : list settlement_row) (limit : nat) :
  Cal.valid today →
  let upcoming := get_upcoming_settlements today table limit in
  (length upcoming ≤ limit)%nat
  ∧ (table = [] → length upcoming = limit)
  ∧ ∀ u, u ∈ upcoming →
      Cal.valid (up_week_start u)
      ∧ Cal.weekday (up_week_start u) = 0%Z
      ∧ Cal.weekday (up_week_end u) = 6%Z
      ∧ settlement_of_week table (up_week_start u) = false.
Proof.
  intros Hd upcoming. unfold upcoming, get_upcoming_settlements.
  rewrite (upcoming_fold today table Hd), app_nil_l.
  destruct (week_start_end_spec today Hd) as (Hv & _ & Hmon & _).
  split; [|split].
  - rewrite length_fmap.
    etrans; [apply length_filter|]. by rewrite length_seq.
  - intros ->. rewrite length_fmap.
    assert (∀ l : list nat,
              filter (λ i, settlement_of_week []
                             (Cal.add_days (i * 7) (week_start_end_for_date today).1)
                           = false) l = l) as ->.
    { induction l as [|i l IH]; [done|].
      rewrite filter_cons, decide_True by done. by rewrite IH. }
    by rewrite length_seq.
  - intros u Hu. apply list_elem_of_fmap in Hu as (i & -> & Hi).
    apply list_elem_of_filter in Hi as [Hfree _].
    unfold upcoming_entry. cbn [up_week_start up_week_end].
    destruct (add_days_spec (i * 7) _ Hv) as (Hvi & _ & _).
    split; [exact Hvi|]. split; [|split; [|exact Hfree]].
    + rewrite weekday_add_days by done. rewrite Hmon.
      rewrite Nat2Z.inj_mul. change (Z.of_nat 7) with 7%Z.
      by rewrite Z.add_0_l, Z.mod_mul.
    + rewrite <- add_days_add, weekday_add_days by done. rewrite Hmon.
      rewrite Nat2Z.inj_add, Nat2Z.inj_mul.
      change (Z.of_nat 7) with 7%Z. change (Z.of_nat 6) with 6%Z.
      rewrite Z.add_0_l, Z.mod_add by lia. done.
Qed.

Section Averages.

Lemma average_held (d : gmap string Q) (key : string)
    (column : settlement_row → Q) (settlements : list settlement_row) :
  d !! key = Some (quant (sum_of column settlements
                          / inject_Z (Z.of_nat (length settlements)))) →
  holds_average d key column settlements.
Proof.
  intros H. eexists. split; [exact H|]. split; [apply quant_is_cents|].
  apply quant_error.
Qed.

End Averages.

(** [calculate_weekly_averages] never divides by zero: without
    settlements it returns the empty dictionary, otherwise the number of
    settlements and, for each of the four columns, the mean of the column
    rounded to cents (so within half a cent of the mean). *)
Theorem weekly_averages_are_rounded_means (settlements : list settlement_row) :
  ∃ d,
    calculate_weekly_averages settlements = Ok d
    ∧ (settlements = [] → d = ∅)
    ∧ (settlements ≠ [] →
       d !! "total_weeks" = Some (inject_Z (Z.of_nat (length settlements)))
       ∧ holds_average d "avg_income" st_total_income settlements
       ∧ holds_average d "avg_expenses" st_total_expenses settlements
       ∧ holds_average d "avg_net" st_net_distributable settlements
       ∧ holds_average d "avg_advances" st_total_advances settlements).
Proof.
  destruct settlements as [|s l]; [by eexists|].
  set (settlements := s :: l).
  unfold calculate_weekly_averages. fold settlements.
  assert (Dec.eqb (inject_Z (Z.of_nat (length settlements))) 0 = false) as Hn.
  { unfold Dec.eqb. apply not_true_is_false. intros H.
    apply Qeq_bool_iff in H. unfold Qeq in H. simpl in H. lia. }
  unfold Dec.div. rewrite Hn.
  unfold mbind, outcome_bind, mret, outcome_ret. cbv beta iota.
  eexists. split; [reflexivity|]. split; [done|]. intros _.
  split; [done|].
  repeat split; apply average_held; done.
Qed.

(** Completing a settlement is final.  Once an admin has completed an
    open settlement, every item is paid, so [api_mark_received] refuses
    each of them; completing again changes nothing; and
    [api_delete_settlement] refuses the settlement and leaves the [Debt]
    row as it is. *)
Theorem completed_settlement_is_final (settlement : settlement_row)
    (items : list settlement_item) :
  st_is_completed settlement = false →
  let completed := complete_transaction "admin" settlement items in
  st_is_completed completed.1 = true
  ∧ (∀ item now, item ∈ completed.2 →
       api_mark_received now item = (item, false))
  ∧ (∀ role, complete_transaction role completed.1 completed.2 = completed)
  ∧ (∀ role row,
       Ledger.api_delete_settlement role (st_is_completed completed.1)
         (st_debt_deduction completed.1) row = (row, false)).
Proof.
  intros Hopen completed. unfold completed, complete_transaction.
  rewrite Hopen. cbn [String.eqb Ascii.eqb Bool.eqb negb fst snd st_is_completed
                      st_debt_deduction].
  split; [done|]. split; [|split].
  - intros item now Hitem. apply list_elem_of_fmap in Hitem as (i & -> & _).
    unfold api_mark_received. cbn [si_is_paid negb]. by rewrite andb_false_r.
  - intros role. by destruct (negb (String.eqb role "admin")).
  - intros role row. unfold Ledger.api_delete_settlement.
    by destruct (negb (String.eqb role "admin")).
Qed.

(** [api_mark_received] records the time but never marks the item paid:
    a request that succeeds can be repeated, succeeds again and replaces
    the time recorded before. *)
Theorem mark_received_can_repeat (now later : Z) (item : settlement_item) :
  (api_mark_received now item).2 = true →
  si_is_paid (api_mark_received now item).1 = false
  ∧ si_received_at (api_mark_received now item).1 = Some now
  ∧ (api_mark_received later (api_mark_received now item).1).2 = true
  ∧ si_received_at (api_mark_received later (api_mark_received now item).1).1
    = Some later.
Proof.
  unfold api_mark_received.
  destruct (Dec.ltb 0 (si_net_payout item) && negb (si_is_paid item)) eqn:E;
    [|done].
  intros _. cbn [fst snd si_is_paid si_received_at si_net_payout]. rewrite E.
  apply andb_true_iff in E as [_ Hpaid]. apply negb_true_iff in Hpaid.
  done.
Qed.

Lemma api_create_settlement_debt (cfg : config)
    (get_advances : date → date → gmap string Q)
    (row : option debt_state) (data : settlement_request)
    (res : settlement_values) (created : debt_state) :
  api_create_settlement cfg get_advances row data = Ok (res, created) →
  created = (Ledger.apply_payment (debt res) (Ledger.first_or_new row)).1.
Proof.
  unfold api_create_settlement.
  destruct (week_start_end_for_date (req_ref_date data)) as [ws we].
  destruct (calculate_settlement_values _ _ _ _ _ _ _) as [calc|e];
    [|discriminate].
  unfold mbind, outcome_bind, mret, outcome_ret.
  destruct (Ledger.apply_payment (debt calc) (Ledger.first_or_new row))
    as [debt_row actual] eqn:E.
  intros [= <- <-]. by rewrite E.
Qed.

(** Deleting a settlement right after its creation adds the stored
    [debt_deduction] back to the balance.  That restores the [Debt] row
    when the deduction did not exceed the balance owed before; when it
    did, the balance ends at the whole deduction, and when nothing was
    owed (the deduction was booked as new debt) it ends at twice the
    deduction. *)
Theorem delete_after_create_debt (cfg : config)
    (get_advances : date → date → gmap string Q)
    (row : option debt_state) (data : settlement_request)
    (res : settlement_values) (created : debt_state) :
  api_create_settlement cfg get_advances row data = Ok (res, created) →
  debt_invariant (Ledger.first_or_new row) →
  0 < debt res →
  let before := Ledger.first_or_new row in
  ∃ after,
    Ledger.api_delete_settlement "admin" false (debt res) (Some created)
    = (Some after, true)
    ∧ (debt res <= remaining_debt before →
       remaining_debt after == remaining_debt before
       ∧ total_debt after == total_debt before)
    ∧ (0 < remaining_debt before → remaining_debt before < debt res →
       remaining_debt after == debt res
       ∧ total_debt before <= total_debt after)
    ∧ (remaining_debt before == 0 →
       remaining_debt after == 2 * debt res
       ∧ total_debt before + debt res <= total_debt after).
Proof.
  intros Hcreate [Hlo Hhi] Hpos before.
  apply api_create_settlement_debt in Hcreate as ->. fold before in Hlo, Hhi |- *.
  set (p := debt res) in *.
  unfold Ledger.api_delete_settlement, Ledger.reverse_payment.
  cbn [String.eqb Ascii.eqb Bool.eqb negb].
  rewrite (proj2 (ltb_lt 0 p) Hpos).
  unfold Ledger.apply_payment.
  destruct (Dec.ltb 0 (remaining_debt before)) eqn:Hrem;
    [apply ltb_lt in Hrem|apply ltb_ge in Hrem].
  - destruct (Qle_bool (remaining_debt before) p) eqn:Hle; cbn [fst].
    + apply Qle_bool_iff in Hle.
      cbn [total_debt remaining_debt].
      destruct (Dec.ltb (total_debt before) (0 + p)) eqn:Hover;
        [apply ltb_lt in Hover|apply ltb_ge in Hover];
        (eexists; split; [reflexivity|]); cbn [total_debt remaining_debt];
        repeat split; intros; lra.
    + assert (p < remaining_debt before) as Hlt.
      { apply Qnot_le_lt. intros H. apply Qle_bool_iff in H. congruence. }
      cbn [total_debt remaining_debt].
      destruct (Dec.ltb (total_debt before) (remaining_debt before - p + p))
        eqn:Hover; [apply ltb_lt in Hover|apply ltb_ge in Hover];
        (eexists; split; [reflexivity|]); cbn [total_debt remaining_debt];
        repeat split; intros; lra.
  - cbn [fst total_debt remaining_debt].
    destruct (Dec.ltb (total_debt before + p) (remaining_debt before + p + p))
      eqn:Hover; [apply ltb_lt in Hover|apply ltb_ge in Hover];
      (eexists; split; [reflexivity|]); cbn [total_debt remaining_debt];
      repeat split; intros; lra.
Qed.

(** [quant] keeps the order of amounts and treats the two signs alike:
    a negative amount rounds to the negation of what its absolute value
    rounds to (ties go away from zero). *)
Theorem quant_monotone_and_odd (v w : Q) :
  (v <= w → quant v <= quant w) ∧ quant (- v) == - quant v.
Proof.
  split; [apply quant_mono|].
  unfold quant.
  assert (Dec.round_half_up (- v * 100) = (- Dec.round_half_up (v * 100))%Z)
    as ->; [|reflexivity].
  rewrite (round_half_up_proper (- v * 100) (- (v * 100))) by ring.
  unfold Dec.round_half_up.
  destruct (Qle_bool 0 (v * 100)) eqn:E1, (Qle_bool 0 (- (v * 100))) eqn:E2.
  - apply Qle_bool_iff in E1, E2.
    rewrite (Qfloor_comp (v * 100 + (1 # 2)) (1 # 2)) by lra.
    rewrite (Qfloor_comp (- (v * 100) + (1 # 2)) (1 # 2)) by lra.
    reflexivity.
  - by rewrite (Qfloor_comp (- - (v * 100) + (1 # 2)) (v * 100 + (1 # 2)))
      by ring.
  - lia.
  - assert (¬ 0 <= v * 100) as H1
      by (intros H; apply Qle_bool_iff in H; congruence).
    assert (¬ 0 <= - (v * 100)) as H2
      by (intros H; apply Qle_bool_iff in H; congruence).
    lra.
Qed.

(** * The financial summary *)

Section Summary.

Variable current_year : Z.
Variable settlements : list settlement_row.

Lemma sum_of_acc (f : settlement_row → Q) (l : list settlement_row) (a : Q) :
  foldl (λ acc s, acc + f s) a l == a + sum_of f l.
Proof.
  unfold sum_of. revert a. induction l as [|s l IH]; intros a; simpl.
  - ring.
  - rewrite IH, (IH (0 + f s)). ring.
Qed.

Lemma sum_of_cons (f : settlement_row → Q) (s : settlement_row)
    (l : list settlement_row) :
  sum_of f (s :: l) == f s + sum_of f l.
Proof. unfold sum_of at 1. simpl. rewrite sum_of_acc. ring. Qed.

Lemma months_count_app (a b : list (string * month_summary)) :
  months_count (a ++ b) = (months_count a + months_count b)%nat.
Proof. induction a as [|e a IH]; simpl; [done|]. rewrite IH. lia. Qed.

Lemma months_total_app (column : month_summary → Q)
    (a b : list (string * month_summary)) :
  months_total column (a ++ b) == months_total column a + months_total column b.
Proof. induction a as [|e a IH]; simpl; [ring|]. rewrite IH. ring. Qed.

(** The settlements of the year that fall into one of the months [ms]. *)
Local Abbreviation in_months ms l :=
  (filter (λ s, year (st_week_start s) = current_year
                ∧ month (st_week_start s) ∈ ms) l).

Lemma in_months_cons (m : Z) (ms : list Z) (f : settlement_row → Q)
    (l : list settlement_row) :
  m ∉ ms →
  length (in_months (m :: ms) l)
  = (length (monthly_settlements current_year m l) + length (in_months ms l))%nat
  ∧ sum_of f (in_months (m :: ms) l)
    == sum_of f (monthly_settlements current_year m l)
       + sum_of f (in_months ms l).
Proof.
  intros Hm. unfold monthly_settlements.
  induction l as [|s l [IHn IHs]]; [split; [done|vm_compute; done]|].
  rewrite !filter_cons.
  destruct (decide (year (st_week_start s) = current_year
                    ∧ month (st_week_start s) = m)) as [[Hy Hmm]|Hno].
  - rewrite decide_True by (split; [done|]; rewrite Hmm; set_solver).
    rewrite decide_False by (intros [_ Hin]; by rewrite Hmm in Hin).
    split; [simpl; lia|]. rewrite !sum_of_cons, IHs. ring.
  - destruct (decide (year (st_week_start s) = current_year
                      ∧ month (st_week_start s) ∈ ms)) as [[Hy Hin]|Hno'].
    + rewrite decide_True by (split; [done|]; apply elem_of_cons; by right).
      split; [simpl; lia|]. rewrite !sum_of_cons, IHs. ring.
    + rewrite decide_False; [done|].
      intros [Hy Hin]. apply elem_of_cons in Hin as [Heq|Hin]; tauto.
Qed.

Lemma add_month_totals (monthly_data : list (string * month_summary)) (m : Z) :
  months_count (add_month current_year settlements monthly_data m)
  = (months_count monthly_data
     + length (monthly_settlements current_year m settlements))%nat
  ∧ months_total ms_income (add_month current_year settlements monthly_data m)
    == months_total ms_income monthly_data
       + sum_of st_total_income (monthly_settlements current_year m settlements)
  ∧ months_total ms_net (add_month current_year settlements monthly_data m)
    == months_total ms_net monthly_data
       + sum_of st_net_distributable
           (monthly_settlements current_year m settlements)
  ∧ (Forall (λ entry, 0 < ms_count entry.2)%nat monthly_data →
     Forall (λ entry, 0 < ms_count entry.2)%nat
            (add_month current_year settlements monthly_data m)).
Proof.
  unfold add_month.
  destruct (monthly_settlements current_year m settlements) as [|s l] eqn:E.
  - split; [simpl; lia|]. split; [vm_compute sum_of; ring|].
    split; [vm_compute sum_of; ring|done].
  - rewrite months_count_app, !months_total_app. simpl.
    split; [lia|]. split; [ring|]. split; [ring|].
    intros H. apply Forall_app. split; [done|].
    apply Forall_singleton. simpl. lia.
Qed.

Lemma months_fold (ms : list Z) (monthly_data : list (string * month_summary)) :
  NoDup ms →
  let result := foldl (add_month current_year settlements) monthly_data ms in
  months_count result
  = (months_count monthly_data + length (in_months ms settlements))%nat
  ∧ months_total ms_income result
    == months_total ms_income monthly_data
       + sum_of st_total_income (in_months ms settlements)
  ∧ months_total ms_net result
    == months_total ms_net monthly_data
       + sum_of st_net_distributable (in_months ms settlements)
  ∧ (Forall (λ entry, 0 < ms_count entry.2)%nat monthly_data →
     Forall (λ entry, 0 < ms_count entry.2)%nat result).
Proof.
  intros Hnd. revert monthly_data.
  induction Hnd as [|m ms Hm Hnd IH]; intros monthly_data result.
  - unfold result. simpl.
    assert (∀ l : list settlement_row, in_months [] l = []) as ->.
    { induction l as [|s l IHl]; [done|].
      rewrite filter_cons, decide_False; [done|].
      intros [_ Hin]. by apply elem_of_nil in Hin. }
    split; [simpl; lia|]. split; [vm_compute sum_of; ring|].
    split; [vm_compute sum_of; ring|done].
  - unfold result. cbn [foldl].
    destruct (IH (add_month current_year settlements monthly_data m))
      as (Hn & Hi & Hnet & Hall).
    destruct (add_month_totals monthly_data m) as (Hn' & Hi' & Hnet' & Hall').
    destruct (in_months_cons m ms st_total_income settlements Hm) as [Hlen Hsi].
    destruct (in_months_cons m ms st_net_distributable settlements Hm)
      as [_ Hsn].
    split; [rewrite Hn, Hn', Hlen; lia|].
    split; [rewrite Hi, Hi', Hsi; ring|].
    split; [rewrite Hnet, Hnet', Hsn; ring|]. auto.
Qed.

Lemma in_months_all (l : list settlement_row) :
  Forall (λ s, Cal.valid (st_week_start s)) l →
  in_months (seqZ 1 12) l = settlements_of_year current_year l.
Proof.
  unfold settlements_of_year.
  induction 1 as [|s l Hs Hl IH]; [done|].
  rewrite !filter_cons, IH.
  destruct (decide (year (st_week_start s) = current_year)) as [Hy|Hy].
  - rewrite decide_True; [done|]. split; [done|].
    apply elem_of_seqZ. destruct Hs as (_ & Hm & _). lia.
  - rewrite decide_False; [done|]. tauto.
Qed.

End Summary.

(** The monthly breakdown of [get_financial_summary] splits this year's
    settlements by the month their week starts in: the counts of its
    entries add up to the number of this year's settlements, the incomes
    and the net amounts to their totals, and no entry is empty.  The paid
    and the remaining debt add up to the total debt. *)
Theorem monthly_data_partitions_year (today : date)
    (settlements : list settlement_row) (members : gmap string Q)
    (row : option debt_state) :
  Forall (λ s, Cal.valid (st_week_start s)) settlements →
  let summary := get_financial_summary today settlements members row in
  let this_year := settlements_of_year (year today) settlements in
  months_count (fs_monthly_data summary) = length this_year
  ∧ months_total ms_income (fs_monthly_data summary)
    == sum_of st_total_income this_year
  ∧ months_total ms_net (fs_monthly_data summary)
    == sum_of st_net_distributable this_year
  ∧ Forall (λ entry, 0 < ms_count entry.2)%nat (fs_monthly_data summary)
  ∧ (length this_year ≤ fs_settlement_count summary)%nat
  ∧ fs_paid_debt summary + fs_remaining_debt summary == fs_total_debt summary.
Proof.
  intros Hvalid summary this_year.
  unfold summary, get_financial_summary.
  cbn [fs_monthly_data fs_settlement_count fs_paid_debt fs_remaining_debt
       fs_total_debt].
  destruct (months_fold (year today) settlements (seqZ 1 12) [])
    as (Hn & Hi & Hnet & Hall); [apply NoDup_seqZ|].
  pose proof (in_months_all (year today) settlements Hvalid) as Hsame.
  fold this_year in Hsame.
  rewrite Hsame in Hn, Hi, Hnet.
  split; [by rewrite Hn|]. split; [rewrite Hi; simpl; ring|].
  split; [rewrite Hnet; simpl; ring|]. split; [by apply Hall|].
  split; [apply length_filter|]. ring.
Qed.

(** * Instances of the properties above *)

Lemma a_wednesday_valid : Cal.valid a_wednesday.
Proof. repeat split; vm_compute; discriminate. Qed.

Lemma one_advance_db_consistent : balances_consistent one_advance_db.
Proof.
  intros name outstanding Hname. cbn [one_advance_db outstanding_advance] in Hname.
  apply lookup_singleton_Some in Hname as [<- <-]. reflexivity.
Qed.

Lemma week_of_date_witness :
  let week := week_start_end_for_date a_wednesday in
  Cal.valid week.1 ∧ Cal.valid week.2
  ∧ Cal.weekday week.1 = 0%Z ∧ Cal.weekday week.2 = 6%Z
  ∧ week.2 = Cal.add_days 6 week.1
  ∧ (0 ≤ Cal.weekday a_wednesday ≤ 6)%Z
  ∧ Cal.add_days (Z.to_nat (Cal.weekday a_wednesday)) week.1 = a_wednesday.
Proof. apply (week_of_date a_wednesday). exact a_wednesday_valid. Defined.

Lemma week_is_shared_witness :
  week_start_end_for_date
    (Cal.add_days 3 (week_start_end_for_date a_wednesday).1)
  = week_start_end_for_date a_wednesday.
Proof.
  apply (week_is_shared a_wednesday 3).
  - exact a_wednesday_valid.
  - lia.
Defined.

Lemma week_shifts_by_weeks_witness :
  week_start_end_for_date (Cal.add_days (2 * 7) a_wednesday)
  = (Cal.add_days (2 * 7) (week_start_end_for_date a_wednesday).1,
     Cal.add_days (2 * 7) (week_start_end_for_date a_wednesday).2).
Proof.
  apply (week_shifts_by_weeks a_wednesday 2). exact a_wednesday_valid.
Defined.

Lemma month_end_is_detected_witness :
  is_last_week_of_month (week_start_end_for_date a_wednesday).1
                        (week_start_end_for_date a_wednesday).2 = true.
Proof.
  apply (month_end_is_detected a_wednesday).
  - exact a_wednesday_valid.
  - reflexivity.
Defined.

Lemma add_then_delete_advance_witness :
  ∃ db',
    api_delete_advance 2
      (api_add_advance a_wednesday 2 "Bett" 500 one_advance_db).1 = Some db'
    ∧ advance_rows db' = advance_rows one_advance_db
    ∧ same_amounts (outstanding_advance db') (outstanding_advance one_advance_db).
Proof.
  apply (add_then_delete_advance a_wednesday 2 "Bett" 500 one_advance_db).
  - reflexivity.
  - discriminate.
  - repeat constructor. simpl. lia.
Defined.

Lemma advance_routes_keep_balances_witness :
  (Forall (λ a, wa_id a ≠ 2%Z) (advance_rows one_advance_db) →
   NoDup (wa_id <$> advance_rows
            (api_add_advance a_wednesday 2 "Bett" 500 one_advance_db).1))
  ∧ balances_consistent
      (api_add_advance a_wednesday 2 "Bett" 500 one_advance_db).1
  ∧ ∀ db', api_delete_advance 1 one_advance_db = Some db' →
      NoDup (wa_id <$> advance_rows db') ∧ balances_consistent db'.
Proof.
  apply (advance_routes_keep_balances a_wednesday 2 1 "Bett" 500 one_advance_db).
  - simpl. apply NoDup_singleton.
  - exact one_advance_db_consistent.
Defined.

Lemma advances_outside_shares_ignored_witness :
  calculate_settlement_values app_config
    (<["Guest" := 300]> advances_of_bett) 100000 20000
    (Date 2024 1 8) (Date 2024 1 14) false
  = res ← calculate_settlement_values app_config advances_of_bett 100000 20000
             (Date 2024 1 8) (Date 2024 1 14) false;
    mret (with_total_advances
            (quant (sum_values (<["Guest" := 300]> advances_of_bett))) res).
Proof.
  apply (advances_outside_shares_ignored app_config advances_of_bett).
  intros name Hname. unfold advance_of.
  rewrite lookup_insert_ne; [reflexivity|].
  intros <-. vm_compute in Hname. by destruct Hname.
Defined.

Lemma payouts_never_negative_witness :
  ∃ res,
    calculate_settlement_values app_config advances_of_bett 100000 20000
      (Date 2024 1 8) (Date 2024 1 14) false = Ok res
    ∧ map_Forall (λ _ gross, 0 <= gross) (gross_shares res)
    ∧ map_Forall (λ _ payout, 0 <= payout) (net_payouts res).
Proof.
  apply (payouts_never_negative app_config advances_of_bett).
  - exact app_config_positive.
  - vm_compute. discriminate.
Defined.

Lemma settlement_items_cover_members_witness :
  ∃ res items,
    calculate_settlement_values app_config advances_of_bett 100000 20000
      (Date 2024 1 8) (Date 2024 1 14) false = Ok res
    ∧ settlement_items res advances_of_bett = Ok items
    ∧ length items = size (FIXED_SHARES app_config)
    ∧ NoDup (si_member_name <$> items)
    ∧ ∀ item,
        item ∈ items
        ↔ ∃ name ratio net_payout,
            FIXED_SHARES app_config !! name = Some ratio
            ∧ net_payouts res !! name = Some net_payout
            ∧ item = item_of advances_of_bett name
                       (gross_share (net_distributable res) ratio) net_payout.
Proof.
  apply (settlement_items_cover_members app_config advances_of_bett).
  exact app_config_positive.
Defined.

Lemma nothing_to_distribute_witness :
  ∃ res payouts,
    calculate_settlement_values app_config advances_of_bett 0 0
      (Date 2024 1 8) (Date 2024 1 14) false = Ok res
    ∧ provisional_payouts app_config advances_of_bett 0 0
        (Date 2024 1 8) (Date 2024 1 14) false = Ok payouts
    ∧ ∀ name gross, gross_shares res !! name = Some gross → gross == 0.
Proof.
  destruct (nothing_to_distribute app_config advances_of_bett 0 0
              (Date 2024 1 8) (Date 2024 1 14) false app_config_positive)
    as (res & payouts & Hres & Hpay & Hgross & _).
  - vm_compute. reflexivity.
  - exists res, payouts. split; [exact Hres|]. split; [exact Hpay|exact Hgross].
Defined.

Lemma validated_settlement_keeps_debt_witness :
  ∃ res row',
    api_create_settlement app_config (λ _ _, ∅) (Some (Debt 50000 40000))
      a_request = Ok (res, row')
    ∧ debt_invariant row'
    ∧ 0 <= expenses res ∧ expenses res <= income res ∧ 0 <= debt res.
Proof.
  apply (validated_settlement_keeps_debt app_config (λ _ _, false)).
  - exact app_config_positive.
  - vm_compute. discriminate.
  - split; vm_compute; discriminate.
  - vm_compute. reflexivity.
Defined.

Lemma upcoming_weeks_are_unsettled_witness :
  get_upcoming_settlements a_wednesday [open_settlement] 3
  = upcoming_entry (week_start_end_for_date a_wednesday).1 <$>
      filter (λ i, settlement_of_week [open_settlement]
                     (Cal.add_days (i * 7) (week_start_end_for_date a_wednesday).1)
                   = false)
             (seq 0 3).
Proof.
  apply (upcoming_weeks_are_unsettled a_wednesday [open_settlement] 3).
  exact a_wednesday_valid.
Defined.

Lemma upcoming_weeks_are_mondays_witness :
  (length (get_upcoming_settlements a_wednesday [open_settlement] 3) ≤ 3)%nat
  ∧ ∀ u, u ∈ get_upcoming_settlements a_wednesday [open_settlement] 3 →
      Cal.weekday (up_week_start u) = 0%Z.
Proof.
  destruct (upcoming_weeks_are_mondays a_wednesday [open_settlement] 3
              a_wednesday_valid) as (Hlen & _ & Hall).
  split; [exact Hlen|]. intros u Hu.
  destruct (Hall u Hu) as (_ & Hmon & _). exact Hmon.
Defined.

Lemma completed_settlement_is_final_witness :
  st_is_completed
    (complete_transaction "admin" open_settlement [unpaid_item]).1 = true
  ∧ ∀ item now,
      item ∈ (complete_transaction "admin" open_settlement [unpaid_item]).2 →
      api_mark_received now item = (item, false).
Proof.
  destruct (completed_settlement_is_final open_settlement [unpaid_item])
    as (Hdone & Hpaid & _); [reflexivity|].
  split; [exact Hdone|exact Hpaid].
Defined.

Lemma mark_received_can_repeat_witness :
  si_is_paid (api_mark_received 10 unpaid_item).1 = false
  ∧ si_received_at (api_mark_received 10 unpaid_item).1 = Some 10%Z
  ∧ (api_mark_received 20 (api_mark_received 10 unpaid_item).1).2 = true
  ∧ si_received_at (api_mark_received 20 (api_mark_received 10 unpaid_item).1).1
    = Some 20%Z.
Proof. apply (mark_received_can_repeat 10 20 unpaid_item). reflexivity. Defined.

Lemma delete_after_create_debt_witness :
  ∃ res created after,
    api_create_settlement app_config (λ _ _, ∅) (Some (Debt 50000 40000))
      a_request = Ok (res, created)
    ∧ Ledger.api_delete_settlement "admin" false (debt res) (Some created)
      = (Some after, true)
    ∧ remaining_debt after == 40000 ∧ total_debt after == 50000.
Proof.
  assert (∃ res created,
            api_create_settlement app_config (λ _ _, ∅)
              (Some (Debt 50000 40000)) a_request = Ok (res, created)
            ∧ debt res == 10000) as (res & created & Hcreate & Hdebt).
  { eexists _, _. split; vm_compute; reflexivity. }
  destruct (delete_after_create_debt app_config (λ _ _, ∅)
              (Some (Debt 50000 40000)) a_request res created Hcreate)
    as (after & Hdelete & Hrestored & _).
  - split; vm_compute; discriminate.
  - rewrite Hdebt. vm_compute. reflexivity.
  - exists res, created, after. split; [exact Hcreate|].
    split; [exact Hdelete|].
    apply Hrestored. rewrite Hdebt. vm_compute. discriminate.
Defined.

Lemma monthly_data_partitions_year_witness :
  months_count (fs_monthly_data
                  (get_financial_summary a_wednesday [open_settlement] ∅ None))
  = length (settlements_of_year 2024 [open_settlement]).
Proof.
  destruct (monthly_data_partitions_year a_wednesday [open_settlement] ∅ None)
    as (Hcount & _); [|exact Hcount].
  repeat constructor; vm_compute; discriminate.
Defined.
